(** * Session handling of the AutoGlue console

    A shallow embedding of [src/lib/api.ts] (the axios client with its request
    and response interceptors), of [AuthProvider.login], and of the handlers of
    the organization and member pages that write the browser's [localStorage]
    or remove an element of a displayed list.

    Strings are [string]s of bytes (UTF-8), [localStorage] is a finite map from
    keys to strings, and the header object of a request is a finite map from
    header names to values. *)

From Stdlib Require Import ZArith Ascii String.
From stdpp Require Import gmap strings list fin_maps.

(** ** JavaScript strings *)

Module JS.

Definition dquote : ascii := "034"%char.
Definition backslash : ascii := "092"%char.

(** [!!s] : a string is falsy exactly when it is empty. *)
Definition truthy (s : string) : bool :=
  match s with
  | EmptyString => false
  | String _ _ => true
  end.

(** [!!v] for [v : string | null]. *)
Definition truthy_opt (v : option string) : bool :=
  match v with
  | Some s => truthy s
  | None => false
  end.

(** The second alternative of the pattern (a double quote followed by the end
    of the input): a quote that is the last character. *)
Fixpoint strip_trailing_quote (s : string) : string :=
  match s with
  | EmptyString => EmptyString
  | String c EmptyString => if Ascii.eqb c dquote then EmptyString else s
  | String c rest => String c (strip_trailing_quote rest)
  end.

(** [s.replace(/^Q|Q$/g, EMPTY)], with Q the double quote character: the
    global replace scans from the left; the first alternative can only match at
    index 0, and after it the scan resumes at index 1, where only the second
    alternative can still match, at the last index. *)
Definition strip_quotes (s : string) : string :=
  match s with
  | EmptyString => EmptyString
  | String c rest =>
      if Ascii.eqb c dquote then strip_trailing_quote rest
      else strip_trailing_quote s
  end.

Definition hex_digit (n : N) : ascii :=
  if (n <? 10)%N then ascii_of_N (48 + n) else ascii_of_N (87 + n).

(** One character of [JSON.stringify] on a string (QuoteJSONString). *)
Definition json_escape (c : ascii) : string :=
  let n := N_of_ascii c in
  if Ascii.eqb c dquote then String backslash (String dquote EmptyString)
  else if Ascii.eqb c backslash then String backslash (String backslash EmptyString)
  else if (n =? 8)%N then String backslash "b"
  else if (n =? 9)%N then String backslash "t"
  else if (n =? 10)%N then String backslash "n"
  else if (n =? 12)%N then String backslash "f"
  else if (n =? 13)%N then String backslash "r"
  else if (n <? 32)%N then
    String backslash
      ("u00" +:+ String (hex_digit (n / 16)) (String (hex_digit (n mod 16)) EmptyString))
  else String c EmptyString.

Fixpoint json_escape_all (s : string) : string :=
  match s with
  | EmptyString => EmptyString
  | String c rest => json_escape c +:+ json_escape_all rest
  end.

(** [JSON.stringify(s)] for a string [s]. *)
Definition JSON_stringify (s : string) : string :=
  String dquote (json_escape_all s +:+ String dquote EmptyString).

(** The characters [JSON.stringify] copies as they are. *)
Definition json_plain_char (c : ascii) : bool :=
  negb (Ascii.eqb c dquote) && negb (Ascii.eqb c backslash)
  && negb (N_of_ascii c <? 32)%N.

Fixpoint json_plain (s : string) : bool :=
  match s with
  | EmptyString => true
  | String c rest => json_plain_char c && json_plain rest
  end.

End JS.

(** ** The credential store: [localStorage] *)

Module Storage.

Definition getItem (k : string) (ls : gmap string string) : option string :=
  ls !! k.

Definition setItem (k v : string) (ls : gmap string string) : gmap string string :=
  <[k := v]> ls.

Definition removeItem (k : string) (ls : gmap string string) : gmap string string :=
  delete k ls.

Definition clear (ls : gmap string string) : gmap string string := ∅.

End Storage.

(** ** Request configurations *)

(** The fields of an axios request configuration that [api.ts] reads or
    writes: the [_retry] mark and the header object. *)
Record Config := mkConfig {
  _retry : bool;
  headers : gmap string string
}.

Definition set_header (name value : string) (config : Config) : Config :=
  mkConfig (_retry config) (<[name := value]> (headers config)).

Definition mark_retry (config : Config) : Config :=
  mkConfig true (headers config).

Definition Bearer (token : string) : string := "Bearer " +:+ token.

(** ** The request interceptor ([api.interceptors.request.use]) *)

Definition request_interceptor (ls : gmap string string) (config : Config) : Config :=
  let token := JS.strip_quotes <$> Storage.getItem "access_token" ls in
  let orgId := JS.strip_quotes <$> Storage.getItem "active_org_id" ls in
  let config :=
    match token with
    | Some t =>
        if JS.truthy t && negb (String.eqb t "undefined")
        then set_header "Authorization" (Bearer t) config
        else config
    | None => config
    end in
  match orgId with
  | Some o => if JS.truthy o then set_header "X-Org-ID" o config else config
  | None => config
  end.

(** ** [AuthProvider.login], on a successful response *)

Definition login_store (access_token refresh_token : string)
    (ls : gmap string string) : gmap string string :=
  Storage.setItem "refresh_token" (JS.JSON_stringify refresh_token)
    (Storage.setItem "access_token" (JS.JSON_stringify access_token) ls).

(** ** Pages that write [localStorage] or remove from a displayed list *)

Record Organization := mkOrg {
  id : string;
  name : string;
  slug : string;
  created_at : string
}.

Record Member := mkMember {
  user_id : string;
  role : string
}.

Module Pages.

(** [switchOrg] of the sidebar's organization switcher, and the [Switch]
    buttons of the two organization lists. *)
Definition switchOrg (orgId : string) (ls : gmap string string) : gmap string string :=
  Storage.setItem "active_org_id" orgId ls.

(** [handleSelectOrg] of the organization page. *)
Definition handleSelectOrg (org : Organization) (ls : gmap string string)
    : gmap string string :=
  Storage.setItem "active_org_id" (id org) ls.

(** [onSubmit] of the organization page, once the POST has answered with
    [newOrg]: the new organization becomes the active one. *)
Definition onSubmit_store (newOrg : Organization) (ls : gmap string string)
    : gmap string string :=
  Storage.setItem "active_org_id" (id newOrg) ls.

(** [activeOrgId == org.id] for [activeOrgId : string | null]. *)
Definition loose_eq (activeOrgId : option string) (s : string) : bool :=
  match activeOrgId with
  | Some a => String.eqb a s
  | None => false
  end.

(** The state updater that [handleDeleteOrg] hands to [setOrganizations],
    written like the source: the parameter of the arrow function is named
    [org] too, and hides the organization being deleted. *)
Definition handleDeleteOrg_setOrganizations (org : Organization)
    (prev : list Organization) : list Organization :=
  List.filter (fun org => negb (String.eqb (id org) (id org))) prev.

(** The storage part of [handleDeleteOrg], after the DELETE has succeeded;
    [activeOrgId] and [organizations] are the component's state. *)
Definition handleDeleteOrg_store (activeOrgId : option string)
    (organizations : list Organization) (org : Organization)
    (ls : gmap string string) : gmap string string :=
  if loose_eq activeOrgId (id org) then
    let remaining :=
      List.filter (fun o => negb (String.eqb (id o) (id org))) organizations in
    let nextId := id <$> head remaining in
    match nextId with
    | Some n =>
        if JS.truthy n then Storage.setItem "active_org_id" n ls
        else Storage.removeItem "active_org_id" ls
    | None => Storage.removeItem "active_org_id" ls
    end
  else ls.

(** The state updater of [removeMember], after the DELETE has succeeded. *)
Definition removeMember_setMembers (userId : string) (prev : list Member)
    : list Member :=
  List.filter (fun m => negb (String.eqb (user_id m) userId)) prev.

(** The [Logout] button of the sidebar. *)
Definition logout (ls : gmap string string) : gmap string string :=
  Storage.clear ls.

(** Every place outside [api.ts] that writes [localStorage]. *)
Inductive Action :=
  | Login (access_token refresh_token : string)
  | SwitchOrg (orgId : string)
  | SelectOrg (org : Organization)
  | CreateOrg (newOrg : Organization)
  | DeleteOrg (activeOrgId : option string) (organizations : list Organization)
      (org : Organization)
  | Logout.

Definition perform (a : Action) (ls : gmap string string) : gmap string string :=
  match a with
  | Login access_token refresh_token => login_store access_token refresh_token ls
  | SwitchOrg orgId => switchOrg orgId ls
  | SelectOrg org => handleSelectOrg org ls
  | CreateOrg newOrg => onSubmit_store newOrg ls
  | DeleteOrg activeOrgId organizations org =>
      handleDeleteOrg_store activeOrgId organizations org ls
  | Logout => logout ls
  end.

(** The explicit switches and the removal of an organization. *)
Definition is_switch_or_removal (a : Action) : bool :=
  match a with
  | SwitchOrg _ | SelectOrg _ | DeleteOrg _ _ _ => true
  | _ => false
  end.

End Pages.

(** A string with no quote at either end is what [strip_quotes] returns. *)
Definition unquoted (s : string) : bool :=
  String.eqb (JS.strip_quotes s) s.

(** What the specification asks of a removal by id: the list without the
    elements whose id is the target, every other element kept, in order. *)
Definition remove_by_id {A} (key : A -> string) (target : string) (l : list A)
    : list A :=
  List.filter (fun x => negb (String.eqb (key x) target)) l.

(** ** The response interceptor and the refresh protocol

    JavaScript runs the handlers on one thread, each to its next suspension
    point.  The rejection handler of [api.interceptors.response.use] has one:
    [await axios.post(...)].  A run of the program is therefore a sequence of
    atomic steps: a handler invoked on a failed response (up to its return or
    its [await]), the resumption of a suspended handler when the refresh call
    settles, and the storage writes of the pages in between.

    Request configurations are objects: the handler marks and re-heads the
    very object that sits in the queue and that axios replays.  They live in a
    store indexed by a request number; a replayed request keeps its number,
    since axios carries the fields of the configuration it is given, [_retry]
    included, into the one it reports a later failure with. *)

Module Api.

(** What a promise of this module is rejected with: the error of a request
    made through [api] ([error.config] is the request, [error.response?.status]
    the status, absent on a transport error), or what the refresh call failed
    with. *)
Inductive Error :=
  | AxiosError (request : nat) (status : option Z)
  | RefreshError (status : option Z).

(** The three ways the handler settles the promise it returned. *)
Inductive Path := PassThrough | Queued | Refresher.

Inductive Outcome :=
  | Replayed (config : Config)   (* resolved with [api(originalRequest)] *)
  | Rejected (e : Error).

(** What a step does to the outside: the refresh POST with the refresh token
    of its body, and the settlement of the promise of a failed request. *)
Inductive Effect :=
  | RefreshPost (refresh_token : option string)
  | Settle (p : Path) (request : nat) (o : Outcome).

Record State := mkState {
  isRefreshing : bool;
  failedQueue : list nat;        (* the request each queued closure captured *)
  awaiting : list nat;           (* handlers suspended at the [await] *)
  localStorage : gmap string string;
  defaults_Authorization : option string;
  configs : gmap nat Config;
  location_href : string;
  effects : list Effect
}.

Definition empty_config : Config := mkConfig false ∅.

Definition config_of (st : State) (request : nat) : Config :=
  default empty_config (configs st !! request).

Definition with_config (request : nat) (c : Config) (st : State) : State :=
  mkState (isRefreshing st) (failedQueue st) (awaiting st) (localStorage st)
    (defaults_Authorization st) (<[request := c]> (configs st))
    (location_href st) (effects st).

Definition with_storage (ls : gmap string string) (st : State) : State :=
  mkState (isRefreshing st) (failedQueue st) (awaiting st) ls
    (defaults_Authorization st) (configs st) (location_href st) (effects st).

Definition with_isRefreshing (b : bool) (st : State) : State :=
  mkState b (failedQueue st) (awaiting st) (localStorage st)
    (defaults_Authorization st) (configs st) (location_href st) (effects st).

Definition with_failedQueue (q : list nat) (st : State) : State :=
  mkState (isRefreshing st) q (awaiting st) (localStorage st)
    (defaults_Authorization st) (configs st) (location_href st) (effects st).

Definition with_awaiting (w : list nat) (st : State) : State :=
  mkState (isRefreshing st) (failedQueue st) w (localStorage st)
    (defaults_Authorization st) (configs st) (location_href st) (effects st).

Definition with_defaults (h : string) (st : State) : State :=
  mkState (isRefreshing st) (failedQueue st) (awaiting st) (localStorage st)
    (Some h) (configs st) (location_href st) (effects st).

Definition with_href (h : string) (st : State) : State :=
  mkState (isRefreshing st) (failedQueue st) (awaiting st) (localStorage st)
    (defaults_Authorization st) (configs st) h (effects st).

Definition emit (e : Effect) (st : State) : State :=
  mkState (isRefreshing st) (failedQueue st) (awaiting st) (localStorage st)
    (defaults_Authorization st) (configs st) (location_href st)
    (effects st ++ [e]).

(** [originalRequest.headers.Authorization = v] *)
Definition set_Authorization (request : nat) (v : string) (st : State) : State :=
  with_config request (set_header "Authorization" v (config_of st request)) st.

(** A template literal prints [null] for a null token. *)
Definition template (token : option string) : string :=
  match token with
  | Some t => t
  | None => "null"
  end.

(** The [resolve] closure pushed on the queue for [request]: it re-heads the
    request and resolves the handler's promise with its replay. *)
Definition prom_resolve (request : nat) (token : option string) (st : State) : State :=
  let st := set_Authorization request (Bearer (template token)) st in
  emit (Settle Queued request (Replayed (config_of st request))) st.

(** The [reject] of the handler's promise. *)
Definition prom_reject (request : nat) (e : Error) (st : State) : State :=
  emit (Settle Queued request (Rejected e)) st.

(** [processQueue(error, token)]: the callback of [forEach], run over the
    queue from its first element, then the queue emptied.  An error object is
    truthy. *)
Definition settle_prom (error : option Error) (token : option string)
    (st : State) (prom : nat) : State :=
  match error with
  | Some e => prom_reject prom e st
  | None => prom_resolve prom token st
  end.

Definition processQueue (error : option Error) (token : option string)
    (st : State) : State :=
  let st := foldl (settle_prom error token) st (failedQueue st) in
  with_failedQueue [] st.

(** The rejection handler of the response interceptor, from its entry to its
    return or to the [await]; [None] when the store has no such request. *)
Definition on_rejected (request : nat) (status : option Z) (st : State)
    : option State :=
  match configs st !! request with
  | None => None
  | Some originalRequest =>
      if bool_decide (status = Some 401%Z)
         && negb (_retry originalRequest)
         && JS.truthy_opt (Storage.getItem "refresh_token" (localStorage st))
      then
        let st := with_config request (mark_retry originalRequest) st in
        if isRefreshing st then
          Some (with_failedQueue (failedQueue st ++ [request]) st)
        else
          let st := with_isRefreshing true st in
          let refreshToken := Storage.getItem "refresh_token" (localStorage st) in
          let st := emit (RefreshPost refreshToken) st in
          Some (with_awaiting (awaiting st ++ [request]) st)
      else
        Some (emit (Settle PassThrough request
                      (Rejected (AxiosError request status))) st)
  end.

(** How the awaited refresh call settles: with [data.access_token], or with
    an error. *)
Inductive RefreshResult :=
  | RefreshOk (access_token : string)
  | RefreshFailed (e : Error).

Fixpoint remove_first (request : nat) (l : list nat) : list nat :=
  match l with
  | [] => []
  | x :: l' => if Nat.eqb x request then l' else x :: remove_first request l'
  end.

(** The rest of the handler, resumed when the refresh call settles: the
    remainder of the [try] block or the [catch] block, then [finally].
    [None] when no handler of [request] is suspended. *)
Definition on_refresh_settled (request : nat) (r : RefreshResult) (st : State)
    : option State :=
  if bool_decide (request ∈ awaiting st) then
    let st := with_awaiting (remove_first request (awaiting st)) st in
    let st :=
      match r with
      | RefreshOk newAccessToken =>
          let st := with_storage
                      (Storage.setItem "access_token" newAccessToken (localStorage st)) st in
          let st := with_defaults (Bearer newAccessToken) st in
          let st := processQueue None (Some newAccessToken) st in
          let st := set_Authorization request (Bearer newAccessToken) st in
          emit (Settle Refresher request (Replayed (config_of st request))) st
      | RefreshFailed refreshError =>
          let st := processQueue (Some refreshError) None st in
          let st := with_storage (Storage.removeItem "access_token" (localStorage st)) st in
          let st := with_storage (Storage.removeItem "refresh_token" (localStorage st)) st in
          let st := with_href "/" st in
          emit (Settle Refresher request (Rejected refreshError)) st
      end in
    Some (with_isRefreshing false st)
  else None.

(** The steps of a run: the rejection handler invoked for a failed request,
    the resumption of the handler that awaits the refresh call, and a page
    writing the store.  A page reload starts a new run from [init], with the
    store as it was left. *)
Inductive Event :=
  | ResponseError (request : nat) (status : option Z)
  | RefreshSettled (request : nat) (r : RefreshResult)
  | Page (a : Pages.Action).

Definition step (st : State) (ev : Event) : option State :=
  match ev with
  | ResponseError request status => on_rejected request status st
  | RefreshSettled request r => on_refresh_settled request r st
  | Page a => Some (with_storage (Pages.perform a (localStorage st)) st)
  end.

Fixpoint run (st : State) (evs : list Event) : option State :=
  match evs with
  | [] => Some st
  | ev :: evs' =>
      match step st ev with
      | Some st' => run st' evs'
      | None => None
      end
  end.

(** The module as loaded: no refresh, an empty queue. *)
Definition init (ls : gmap string string) (cfgs : gmap nat Config) (href : string)
    : State :=
  mkState false [] [] ls None cfgs href [].

(** Reading the effects of a run. *)
Definition is_refresh_post (e : Effect) : bool :=
  match e with
  | RefreshPost _ => true
  | _ => false
  end.

Definition path_eqb (p q : Path) : bool :=
  match p, q with
  | PassThrough, PassThrough | Queued, Queued | Refresher, Refresher => true
  | _, _ => false
  end.

Definition is_settle (p : Path) (request : nat) (e : Effect) : bool :=
  match e with
  | Settle p' request' _ => path_eqb p' p && Nat.eqb request' request
  | _ => false
  end.

Definition is_replay_of (request : nat) (e : Effect) : bool :=
  match e with
  | Settle _ request' (Replayed _) => Nat.eqb request' request
  | _ => false
  end.

Definition is_refresher_settle (e : Effect) : bool :=
  match e with
  | Settle Refresher _ _ => true
  | _ => false
  end.

Definition count (f : Effect -> bool) (l : list Effect) : nat :=
  length (List.filter f l).

Definition is_coordinator_event (ev : Event) : bool :=
  match ev with
  | Page _ => false
  | _ => true
  end.

Definition is_settled_event (ev : Event) : bool :=
  match ev with
  | RefreshSettled _ _ => true
  | _ => false
  end.

(** The request has no [_retry] mark, and the store holds a refresh token:
    with a 401, the condition of the handler. *)
Definition eligible (request : nat) (st : State) : Prop :=
  (∃ c, configs st !! request = Some c ∧ _retry c = false)
  ∧ JS.truthy_opt (Storage.getItem "refresh_token" (localStorage st)) = true.

(** The failure of a request with status 401. *)
Definition unauthorized (request : nat) : Event :=
  ResponseError request (Some 401%Z).

(** The two states of the coordinator. *)
Definition idle (st : State) : Prop :=
  isRefreshing st = false ∧ awaiting st = [] ∧ failedQueue st = [].

Definition refreshing (st : State) : Prop :=
  isRefreshing st = true ∧ ∃ request, awaiting st = [request].

(** The places a request holds in the protocol: in the queue, suspended at
    the [await], or settled by either. *)
Definition uses (request : nat) (st : State) : nat :=
  count_occ Nat.eq_dec (failedQueue st) request
  + count_occ Nat.eq_dec (awaiting st) request
  + count (is_settle Queued request) (effects st)
  + count (is_settle Refresher request) (effects st).

(** A replay comes from the queue or from the refreshing handler, and
    carries the [_retry] mark. *)
Definition replay_marked (e : Effect) : Prop :=
  match e with
  | Settle p _ (Replayed c) => p ≠ PassThrough ∧ _retry c = true
  | _ => True
  end.

(** The configurations after [processQueue] has resolved the queue [q] with
    a token whose header value is [h]. *)
Definition rehead_all (h : string) (q : list nat) (m : gmap nat Config)
    : gmap nat Config :=
  foldl (fun m r =>
           <[r := set_header "Authorization" h (default empty_config (m !! r))]> m)
    m q.

(** No request holds more than one place, and one that holds a place is
    marked. *)
Definition once (st : State) : Prop :=
  ∀ request, uses request st ≤ 1
             ∧ (1 ≤ uses request st -> _retry (config_of st request) = true).

(** Every refresh call has settled, or its handler is suspended. *)
Definition balanced (st : State) : Prop :=
  count is_refresh_post (effects st)
  = count is_refresher_settle (effects st) + length (awaiting st).

Record invariant (st : State) : Prop := mkInvariant {
  inv_shape : idle st ∨ refreshing st;
  inv_once : once st;
  inv_marked : Forall replay_marked (effects st);
  inv_balanced : balanced st
}.

(** The request as the success path replays it. *)
Definition reheaded (token : string) (c : Config) : Config :=
  set_header "Authorization" (Bearer token) c.

(** A small session to try the steps on: three requests sent with an
    expired token, an organization selected. *)
Definition demo_config : Config :=
  mkConfig false {[ "Authorization" := "Bearer old" ]}.

Definition demo_storage : gmap string string :=
  {[ "access_token" := "old"; "refresh_token" := "r1";
     "active_org_id" := "org-7" ]}.

Definition demo_state : State :=
  init demo_storage
    {[ 1 := demo_config; 2 := demo_config; 3 := demo_config ]} "/orgs".

(** The same session once the three requests have failed with 401. *)
Definition refreshing_demo : State :=
  mkState true [2; 3] [1] demo_storage None
    {[ 1 := mark_retry demo_config; 2 := mark_retry demo_config;
       3 := mark_retry demo_config ]}
    "/orgs" [RefreshPost (Some "r1")].

Definition demo_error : Error := RefreshError (Some 400%Z).

End Api.

(** The failures of requests, among the steps of a run. *)
Definition is_response_error (ev : Api.Event) : bool :=
  match ev with
  | Api.ResponseError _ _ => true
  | _ => false
  end.

(** ** The route guard ([ProtectedRoute]) *)

Module Route.

Inductive Rendered :=
  | Children
  | Navigate (to : string).

Definition isAuthenticated (ls : gmap string string) : bool :=
  JS.truthy_opt (Storage.getItem "access_token" ls).

Definition ProtectedRoute (ls : gmap string string) : Rendered :=
  if negb (isAuthenticated ls) then Navigate "/" else Children.

End Route.

(** ** The organization switcher of the sidebar ([OrgSwitcher]) *)

Module Switcher.

(** The effect that runs when the switcher mounts: [activeOrg] starts as
    [null] and takes the stored id when there is a non-empty one. *)
Definition mount (ls : gmap string string) : option string :=
  match Storage.getItem "active_org_id" ls with
  | Some current => if JS.truthy current then Some current else None
  | None => None
  end.

(** [org.id === activeOrg] for [activeOrg : string | null]. *)
Definition is_active (activeOrg : option string) (org : Organization) : bool :=
  match activeOrg with
  | Some a => String.eqb (id org) a
  | None => false
  end.

(** [orgs.find(org => org.id === activeOrg)?.name || "Select Org"] *)
Definition currentOrgName (orgs : list Organization) (activeOrg : option string)
    : string :=
  match name <$> List.find (is_active activeOrg) orgs with
  | Some n => if JS.truthy n then n else "Select Org"
  | None => "Select Org"
  end.

End Switcher.

(** ** The organization page ([OrgManagement]) as a component

    The page keeps the displayed list and its own copy of the active id in
    React state; its handlers read that copy, not the store. *)

Module OrgPage.

Record Component := mkComponent {
  organizations : list Organization;
  activeOrgId : option string
}.

(** [useState([])], [useState(null)]. *)
Definition mounted : Component := mkComponent [] None.

Inductive Msg :=
  | Loaded (data : list Organization)        (* the GET of the list answered *)
  | Submitted (newOrg : Organization)        (* [onSubmit], the POST answered *)
  | Selected (org : Organization)            (* [handleSelectOrg] *)
  | Deleted (org : Organization)             (* [handleDeleteOrg], the DELETE answered *)
  | StorageEvent (key : string) (newValue : option string).  (* [onStorage] *)

Definition update (m : Msg) (st : Component * gmap string string)
    : Component * gmap string string :=
  let (c, ls) := st in
  match m with
  | Loaded data => (mkComponent data (activeOrgId c), ls)
  | Submitted newOrg =>
      (mkComponent (newOrg :: organizations c) (activeOrgId c),
       Pages.onSubmit_store newOrg ls)
  | Selected org =>
      (mkComponent (organizations c) (Some (id org)), Pages.handleSelectOrg org ls)
  | Deleted org =>
      let shown := Pages.handleDeleteOrg_setOrganizations org (organizations c) in
      if Pages.loose_eq (activeOrgId c) (id org) then
        let remaining :=
          List.filter (fun o => negb (String.eqb (id o) (id org))) (organizations c) in
        (mkComponent shown (id <$> head remaining),
         Pages.handleDeleteOrg_store (activeOrgId c) (organizations c) org ls)
      else (mkComponent shown (activeOrgId c), ls)
  | StorageEvent key newValue =>
      if String.eqb key "active_org_id"
      then (mkComponent (organizations c) newValue, ls)
      else (c, ls)
  end.

Definition updates (ms : list Msg) (st : Component * gmap string string)
    : Component * gmap string string :=
  foldl (fun st m => update m st) st ms.

End OrgPage.

(** ** Strings that are counted and sliced

    [length], [slice] and the classes of a regular expression work on UTF-16
    code units; where the code counts, a string is the list of its units. *)

Module Units.

Definition of_ascii (s : string) : list N :=
  map N_of_ascii (list_ascii_of_string s).

(** U+2026, the character between the two halves. *)
Definition ellipsis : N := 8230%N.

(** [str.slice(-keep)]: [-0] is [0], and the slice is then the whole string. *)
Definition slice_last (keep : nat) (str : list N) : list N :=
  if Nat.eqb keep 0 then str else drop (length str - keep) str.

(** [truncateMiddle(str, keep)], the same function in the key, pool, taint
    and server pages (they differ in the default of [keep] only). *)
Definition truncateMiddle (str : list N) (keep : nat) : list N :=
  match str with
  | [] => str
  | _ =>
      if length str <=? keep * 2 + 3 then str
      else take keep str ++ [ellipsis] ++ slice_last keep str
  end.

(** The class [\s]: WhiteSpace and LineTerminator. *)
Definition is_space (c : N) : bool :=
  ((9 <=? c) && (c <=? 13) || (c =? 32) || (c =? 160) || (c =? 5760)
   || (8192 <=? c) && (c <=? 8202) || (c =? 8232) || (c =? 8233)
   || (c =? 8239) || (c =? 8287) || (c =? 12288) || (c =? 65279))%N.

(** The first element of [s.split(/\s+/)]: the units before the first
    white space. *)
Fixpoint first_field (s : list N) : list N :=
  match s with
  | [] => []
  | c :: s' => if is_space c then [] else c :: first_field s'
  end.

(** [publicKey?.split(/\s+/)?.[0] ?? "ssh-key"] *)
Definition getKeyType (publicKey : option (list N)) : list N :=
  match publicKey with
  | Some s => first_field s
  | None => of_ascii "ssh-key"
  end.

End Units.

(** ** A JavaScript [Set] of strings: its elements in insertion order *)

Module JSSet.

Definition has (x : string) (s : list string) : bool :=
  existsb (String.eqb x) s.

Definition add (x : string) (s : list string) : list string :=
  if has x s then s else s ++ [x].

Definition delete (x : string) (s : list string) : list string :=
  List.filter (fun y => negb (String.eqb y x)) s.

(** [new Set(iterable)] *)
Definition of_list (l : list string) : list string :=
  foldl (fun s x => add x s) [] l.

(** [Array.from(set)] *)
Definition to_array (s : list string) : list string := s.

End JSSet.

(** ** The node pool page ([NodePoolsPage]) *)

Module Pools.

Record ServerBrief := mkServerBrief {
  id : string;
  hostname : option string;
  ip : option string;
  ip_address : option string;
  role : option string;
  status : option string
}.

Record NodePool := mkNodePool {
  pool_id : string;
  pool_name : string;
  servers : option (list ServerBrief)
}.

(** [a || b] on optional strings. *)
Definition or_else (a b : option string) : option string :=
  if JS.truthy_opt a then a else b.

Definition serverLabel (s : ServerBrief) : string :=
  let ip := or_else (ip s) (ip_address s) in
  let name := default (id s) (or_else (or_else (hostname s) ip) None) in
  let role :=
    match role s with
    | Some r => if JS.truthy r then " · " +:+ r else EmptyString
    | None => EmptyString
    end in
  name +:+ role.

(** The [useMemo] of [attachableServers]. *)
Definition attachableServers (manageTarget : option NodePool)
    (allServers : list ServerBrief) : list ServerBrief :=
  match manageTarget with
  | None => []
  | Some target =>
      let attachedIds := JSSet.of_list (map id (default [] (servers target))) in
      List.filter (fun s => negb (JSSet.has (id s) attachedIds)) allServers
  end.

(** [field.value?.includes(s.id) || false] *)
Definition checked (value : option (list string)) (server_id : string) : bool :=
  match value with
  | Some l => existsb (String.eqb server_id) l
  | None => false
  end.

(** [onCheckedChange] of a server's checkbox: what it hands to
    [field.onChange]. *)
Definition onCheckedChange (v : bool) (value : option (list string))
    (server_id : string) : list string :=
  let next := JSSet.of_list (default [] value) in
  JSSet.to_array (if v then JSSet.add server_id next else JSSet.delete server_id next).

End Pools.

(** ** The node group picker of the taint page ([TaintsPage]) *)

Module Taints.

(** [toggle(id)]: what it hands to [field.onChange]. *)
Definition toggle (value : option (list string)) (id : string) : list string :=
  let selected := JSSet.of_list (default [] value) in
  let next := JSSet.of_list selected in
  JSSet.to_array (if JSSet.has id next then JSSet.delete id next else JSSet.add id next).

(** [clearOne(id)] *)
Definition clearOne (value : option (list string)) (id : string) : list string :=
  List.filter (fun x => negb (String.eqb x id)) (default [] value).

End Taints.

(** ** The name of a downloaded key ([filenameFromDisposition])

    The two regular expressions are read unit by unit.  Under the flag [i] a
    unit of the text matches a letter of the pattern when it is that letter
    in either case, and matches any other unit of the pattern when it is that
    unit.  [exec] returns the leftmost match; neither pattern has a choice to
    come back to except the optional quote of the second.
    [decodeURIComponent] belongs to the language, not to the page: it is a
    parameter here, with [None] for the [URIError] it may throw. *)

Module Download.

Section WithDecoder.

Variable decodeURIComponent : list N -> option (list N).

Definition upper (c : N) : N :=
  if ((97 <=? c) && (c <=? 122))%N then (c - 32)%N else c.

Definition ci_match (p d : N) : bool := (upper p =? upper d)%N.

(** The text after the literal [lit], when the text begins with it. *)
Fixpoint starts_with_ci (lit s : list N) : option (list N) :=
  match lit with
  | [] => Some s
  | p :: lit' =>
      match s with
      | d :: s' => if ci_match p d then starts_with_ci lit' s' else None
      | [] => None
      end
  end.

(** The longest run of units other than [stop] at the head of the text: a
    negated class under a greedy [+]. *)
Fixpoint run_not (stop : N) (s : list N) : list N :=
  match s with
  | [] => []
  | c :: s' => if (c =? stop)%N then [] else c :: run_not stop s'
  end.

Definition semicolon : N := 59%N.
Definition quote : N := 34%N.

(** The first pattern, up to its group: [filename], a star, an equals sign,
    [UTF-8] and two apostrophes. *)
Definition star_literal : list N :=
  Units.of_ascii "filename*=UTF-8" ++ [39%N; 39%N].

Definition basic_literal : list N := Units.of_ascii "filename=".

(** The first pattern tried at the head of the text: its group. *)
Definition star_at (s : list N) : option (list N) :=
  match starts_with_ci star_literal s with
  | Some rest =>
      match run_not semicolon rest with
      | [] => None
      | cap => Some cap
      end
  | None => None
  end.

(** The second pattern tried at the head of the text: the optional quote is
    taken when one is there, and given back when no name follows it; the name
    then cannot start, the next unit being that quote. *)
Definition basic_at (s : list N) : option (list N) :=
  match starts_with_ci basic_literal s with
  | Some (c :: rest) =>
      if (c =? quote)%N then
        match run_not quote rest with
        | [] => None
        | cap => Some cap
        end
      else Some (run_not quote (c :: rest))
  | _ => None
  end.

(** [exec]: the match at the leftmost position that has one. *)
Fixpoint exec (at_head : list N -> option (list N)) (s : list N)
    : option (list N) :=
  match at_head s with
  | Some cap => Some cap
  | None =>
      match s with
      | [] => None
      | _ :: s' => exec at_head s'
      end
  end.

(** [filenameFromDisposition(disposition, fallback)]; [None] when
    [decodeURIComponent] throws. *)
Definition filenameFromDisposition (disposition : option (list N))
    (fallback : list N) : option (list N) :=
  match disposition with
  | None => Some fallback
  | Some [] => Some fallback
  | Some d =>
      match exec star_at d with
      | Some cap => decodeURIComponent cap
      | None => Some (default fallback (exec basic_at d))
      end
  end.

End WithDecoder.

End Download.

(** ** Proof steps for the states of [Api] *)

(** The state after a step, with the setters applied innermost first and
    the maps left alone. *)
Ltac fields :=
  cbv [Api.with_config Api.with_storage Api.with_isRefreshing
       Api.with_failedQueue Api.with_awaiting Api.with_defaults Api.with_href
       Api.emit Api.set_Authorization Api.config_of
       Api.prom_resolve Api.prom_reject
       Api.isRefreshing Api.failedQueue Api.awaiting Api.localStorage
       Api.defaults_Authorization Api.configs Api.location_href Api.effects].

(** The fields of a state that is written out. *)
Ltac projections :=
  cbn [Api.isRefreshing Api.failedQueue Api.awaiting Api.localStorage
       Api.defaults_Authorization Api.configs Api.location_href Api.effects] in *.

(** * Properties *)

(** ** Strings and the request interceptor *)

Example strip_quotes_login :
  JS.strip_quotes (JS.JSON_stringify "eyJhbGciOi.J9") = "eyJhbGciOi.J9".
Proof. reflexivity. Qed.

Example strip_quotes_single : JS.strip_quotes (String JS.dquote EmptyString) = EmptyString.
Proof. reflexivity. Qed.

Example strip_quotes_inner :
  JS.strip_quotes ("a" +:+ String JS.dquote "b") = "a" +:+ String JS.dquote "b".
Proof. reflexivity. Qed.

Example json_escape_newline :
  JS.json_escape "010"%char = String JS.backslash "n".
Proof. reflexivity. Qed.

Example json_escape_control :
  JS.json_escape "031"%char = String JS.backslash "u001f".
Proof. reflexivity. Qed.

Example request_interceptor_login :
  headers (request_interceptor (login_store "tok" "ref" ∅) (mkConfig false ∅))
    !! "Authorization" = Some "Bearer tok".
Proof. vm_compute. reflexivity. Qed.

Lemma strip_trailing_quote_app (s : string) :
  JS.strip_trailing_quote (s +:+ String JS.dquote EmptyString) = s.
Proof.
  induction s as [|c s IH]; [reflexivity|].
  change (String c s +:+ String JS.dquote EmptyString)
    with (String c (s +:+ String JS.dquote EmptyString)).
  destruct s as [|c' s']; [reflexivity|].
  change (JS.strip_trailing_quote
            (String c (String c' s' +:+ String JS.dquote EmptyString)))
    with (String c (JS.strip_trailing_quote
                      (String c' s' +:+ String JS.dquote EmptyString))).
  by rewrite IH.
Qed.

Lemma json_escape_plain (c : ascii) :
  JS.json_plain_char c = true -> JS.json_escape c = String c EmptyString.
Proof.
  destruct c as [[] [] [] [] [] [] [] []]; intros H; try reflexivity;
    discriminate H.
Qed.

Lemma json_escape_all_plain (s : string) :
  JS.json_plain s = true -> JS.json_escape_all s = s.
Proof.
  induction s as [|c s IH]; [reflexivity|].
  simpl. intros [Hc Hs]%andb_prop.
  rewrite (json_escape_plain c Hc), (IH Hs). reflexivity.
Qed.

(** Stripping the quotes undoes [JSON.stringify] on a string that needs no
    escape. *)
Lemma strip_quotes_stringify (s : string) :
  JS.json_plain s = true -> JS.strip_quotes (JS.JSON_stringify s) = s.
Proof.
  intros H. unfold JS.JSON_stringify, JS.strip_quotes.
  rewrite Ascii.eqb_refl, (json_escape_all_plain s H).
  apply strip_trailing_quote_app.
Qed.

Lemma truthy_true (s : string) : JS.truthy s = true <-> s ≠ EmptyString.
Proof. destruct s; simpl; split; congruence. Qed.

Lemma header_set_eq (k v : string) (c : Config) :
  headers (set_header k v c) !! k = Some v.
Proof. apply lookup_insert_eq. Qed.

Lemma header_set_ne (k k' v : string) (c : Config) :
  k ≠ k' -> headers (set_header k v c) !! k' = headers c !! k'.
Proof. intros. by apply lookup_insert_ne. Qed.

Lemma retry_set_header (k v : string) (c : Config) :
  _retry (set_header k v c) = _retry c.
Proof. reflexivity. Qed.

Lemma set_header_idem (k v : string) (c : Config) :
  set_header k v (set_header k v c) = set_header k v c.
Proof. unfold set_header. simpl. by rewrite insert_insert_eq. Qed.

(** The two headers of the interceptor, each in terms of its own key. *)
Lemma request_interceptor_Authorization (ls : gmap string string) (config : Config) :
  headers (request_interceptor ls config) !! "Authorization" =
  match JS.strip_quotes <$> ls !! "access_token" with
  | Some t =>
      if JS.truthy t && negb (String.eqb t "undefined")
      then Some (Bearer t)
      else headers config !! "Authorization"
  | None => headers config !! "Authorization"
  end.
Proof.
  unfold request_interceptor, Storage.getItem.
  destruct (JS.strip_quotes <$> ls !! "active_org_id") as [o|];
    [destruct (JS.truthy o)|];
    rewrite ?header_set_ne by done;
    destruct (JS.strip_quotes <$> ls !! "access_token") as [t|]; try done;
    destruct (JS.truthy t && negb (String.eqb t "undefined")); try done;
    apply header_set_eq.
Qed.

Lemma request_interceptor_X_Org_ID (ls : gmap string string) (config : Config) :
  headers (request_interceptor ls config) !! "X-Org-ID" =
  match JS.strip_quotes <$> ls !! "active_org_id" with
  | Some o => if JS.truthy o then Some o else headers config !! "X-Org-ID"
  | None => headers config !! "X-Org-ID"
  end.
Proof.
  unfold request_interceptor, Storage.getItem.
  destruct (JS.strip_quotes <$> ls !! "active_org_id") as [o|];
    [destruct (JS.truthy o)|];
    rewrite ?header_set_eq; try done;
    destruct (JS.strip_quotes <$> ls !! "access_token") as [t|]; try done;
    destruct (JS.truthy t && negb (String.eqb t "undefined")); try done;
    by rewrite header_set_ne.
Qed.

(** C5: with the stored access token absent, empty or the literal
    [undefined], the request interceptor leaves the [Authorization] entry of
    the outgoing request as it found it: it attaches no such header. *)
Theorem no_Authorization_without_token (ls : gmap string string) (config : Config) :
  Storage.getItem "access_token" ls = None
  ∨ Storage.getItem "access_token" ls = Some EmptyString
  ∨ Storage.getItem "access_token" ls = Some "undefined" ->
  headers (request_interceptor ls config) !! "Authorization"
  = headers config !! "Authorization".
Proof.
  unfold Storage.getItem. intros H.
  rewrite request_interceptor_Authorization.
  destruct H as [-> | [-> | ->]]; reflexivity.
Qed.

Lemma no_Authorization_without_token_witness :
  headers (request_interceptor {[ "access_token" := "undefined" ]} (mkConfig false ∅))
    !! "Authorization" = None.
Proof.
  rewrite (no_Authorization_without_token {[ "access_token" := "undefined" ]}
             (mkConfig false ∅)).
  - reflexivity.
  - right; right. vm_compute. reflexivity.
Defined.

(** C6, as the code has it: a stored access token whose stripped form is
    neither empty nor [undefined] gives the header [Bearer] followed by the
    stored value less one leading and one trailing quote; a stored
    organization id whose stripped form is not empty gives [X-Org-ID] equal to
    that form, which is the id itself as the pages store it; and after a
    login the header carries the very token that was received, provided the
    token holds no character that [JSON.stringify] escapes. *)
Theorem request_interceptor_attaches (ls : gmap string string) (config : Config) :
  (∀ raw, Storage.getItem "access_token" ls = Some raw ->
     JS.strip_quotes raw ≠ EmptyString -> JS.strip_quotes raw ≠ "undefined" ->
     headers (request_interceptor ls config) !! "Authorization"
     = Some (Bearer (JS.strip_quotes raw)))
  ∧ (∀ raw, Storage.getItem "active_org_id" ls = Some raw ->
     JS.strip_quotes raw ≠ EmptyString ->
     headers (request_interceptor ls config) !! "X-Org-ID"
     = Some (JS.strip_quotes raw))
  ∧ (∀ orgId, orgId ≠ EmptyString -> unquoted orgId = true ->
     headers (request_interceptor (Pages.switchOrg orgId ls) config) !! "X-Org-ID"
     = Some orgId)
  ∧ (∀ access_token refresh_token,
     JS.json_plain access_token = true ->
     access_token ≠ EmptyString -> access_token ≠ "undefined" ->
     headers (request_interceptor (login_store access_token refresh_token ls) config)
       !! "Authorization" = Some (Bearer access_token)).
Proof.
  repeat split.
  - unfold Storage.getItem. intros raw Hraw Hne Hund.
    rewrite request_interceptor_Authorization, Hraw. simpl.
    apply truthy_true in Hne. apply String.eqb_neq in Hund.
    by rewrite Hne, Hund.
  - unfold Storage.getItem. intros raw Hraw Hne.
    rewrite request_interceptor_X_Org_ID, Hraw. simpl.
    apply truthy_true in Hne. by rewrite Hne.
  - intros orgId Hne Hq. apply String.eqb_eq in Hq.
    rewrite request_interceptor_X_Org_ID.
    unfold Pages.switchOrg, Storage.setItem. rewrite lookup_insert_eq. simpl.
    rewrite Hq. apply truthy_true in Hne. by rewrite Hne.
  - intros tok ref Hplain Hne Hund.
    rewrite request_interceptor_Authorization.
    unfold login_store, Storage.setItem.
    rewrite lookup_insert_ne by done. rewrite lookup_insert_eq.
    cbn -[JS.strip_quotes JS.JSON_stringify String.eqb].
    rewrite (strip_quotes_stringify tok Hplain).
    apply truthy_true in Hne. apply String.eqb_neq in Hund.
    by rewrite Hne, Hund.
Qed.

Lemma request_interceptor_attaches_witness :
  headers (request_interceptor
             (login_store "eyJhbGciOi.J9" "r1" {[ "active_org_id" := "org-7" ]})
             (mkConfig false ∅)) !! "Authorization"
  = Some "Bearer eyJhbGciOi.J9"
  ∧ headers (request_interceptor
               (login_store "eyJhbGciOi.J9" "r1" {[ "active_org_id" := "org-7" ]})
               (mkConfig false ∅)) !! "X-Org-ID"
    = Some "org-7".
Proof.
  split.
  - apply (request_interceptor_attaches {[ "active_org_id" := "org-7" ]}
             (mkConfig false ∅)); [reflexivity | discriminate | discriminate].
  - apply (proj1 (proj2 (request_interceptor_attaches
             (login_store "eyJhbGciOi.J9" "r1" {[ "active_org_id" := "org-7" ]})
             (mkConfig false ∅))) "org-7"); [vm_compute; reflexivity | discriminate].
Defined.

(** C6, as stated, fails on a token with a double quote in it: login stores
    the token with the quote escaped, the interceptor strips the outer quotes
    only, and the header carries the escaped text, not the token. *)
Lemma login_token_with_quote :
  let token := "a" +:+ String JS.dquote "b" in
  let ls := login_store token "r1" ∅ in
  JS.json_plain token = false
  ∧ Storage.getItem "access_token" ls
    = Some (String JS.dquote
              ("a" +:+ String JS.backslash (String JS.dquote "b")
               +:+ String JS.dquote EmptyString))
  ∧ headers (request_interceptor ls (mkConfig false ∅)) !! "Authorization"
    = Some (Bearer ("a" +:+ String JS.backslash (String JS.dquote "b")))
  ∧ headers (request_interceptor ls (mkConfig false ∅)) !! "Authorization"
    ≠ Some (Bearer token).
Proof.
  cbv zeta. repeat split; try (vm_compute; reflexivity).
  rewrite request_interceptor_Authorization.
  vm_compute. discriminate.
Qed.

(** ** The pages: the active organization and the displayed lists *)

Lemma login_store_other (access_token refresh_token k : string)
    (ls : gmap string string) :
  k ≠ "access_token" -> k ≠ "refresh_token" ->
  login_store access_token refresh_token ls !! k = ls !! k.
Proof.
  intros H1 H2. unfold login_store, Storage.setItem.
  by rewrite !lookup_insert_ne.
Qed.

(** [removeMember] removes by id, as the specification asks. *)
Lemma removeMember_removes_by_id (userId : string) (prev : list Member) :
  Pages.removeMember_setMembers userId prev = remove_by_id user_id userId prev.
Proof. reflexivity. Qed.

(** The updater of [handleDeleteOrg] compares each element with itself, and
    keeps none. *)
Lemma handleDeleteOrg_keeps_none (org : Organization) (prev : list Organization) :
  Pages.handleDeleteOrg_setOrganizations org prev = [].
Proof.
  unfold Pages.handleDeleteOrg_setOrganizations.
  induction prev as [|o prev IH]; [reflexivity|].
  simpl. by rewrite String.eqb_refl.
Qed.

(** [removeMember] keeps exactly the members with another id. *)
Lemma removeMember_keeps_the_others (userId : string) (prev : list Member)
    (m : Member) :
  In m (Pages.removeMember_setMembers userId prev)
  <-> In m prev ∧ user_id m ≠ userId.
Proof.
  unfold Pages.removeMember_setMembers. rewrite List.filter_In.
  rewrite negb_true_iff, String.eqb_neq. reflexivity.
Qed.

(** C9 on [handleDeleteOrg]: deleting the first of two organizations empties
    the displayed list, where the removal by id keeps the second. *)
Theorem handleDeleteOrg_drops_the_others :
  let a := mkOrg "a" "Alpha" "alpha" "2025-01-01" in
  let b := mkOrg "b" "Beta" "beta" "2025-01-02" in
  Pages.handleDeleteOrg_setOrganizations a [a; b] = []
  ∧ remove_by_id id (id a) [a; b] = [b]
  ∧ Pages.handleDeleteOrg_setOrganizations a [a; b] ≠ remove_by_id id (id a) [a; b].
Proof. cbv zeta. repeat split. discriminate. Qed.

(** ** The refresh protocol *)

Section Protocol.
Import Api.


Lemma config_of_with_config (request r : nat) (c : Config) (st : State) :
  config_of (with_config request c st) r
  = if decide (request = r) then c else config_of st r.
Proof.
  unfold config_of, with_config. simpl.
  rewrite lookup_insert. by case_decide.
Qed.

Lemma count_app (f : Effect -> bool) (l1 l2 : list Effect) :
  count f (l1 ++ l2) = count f l1 + count f l2.
Proof. unfold count. by rewrite List.filter_app, length_app. Qed.

Lemma count_cons (f : Effect -> bool) (e : Effect) (l : list Effect) :
  count f (e :: l) = (if f e then 1 else 0) + count f l.
Proof. unfold count. simpl. by destruct (f e). Qed.

Lemma count_nil (f : Effect -> bool) : count f [] = 0.
Proof. reflexivity. Qed.

(** *** [processQueue] *)

Lemma foldl_reject (e : Error) (token : option string) (q : list nat) (st : State) :
  foldl (settle_prom (Some e) token) st q
  = mkState (isRefreshing st) (failedQueue st) (awaiting st) (localStorage st)
      (defaults_Authorization st) (configs st) (location_href st)
      (effects st ++ map (fun r => Settle Queued r (Rejected e)) q).
Proof.
  revert st. induction q as [|r q IH]; intros st.
  - simpl. rewrite app_nil_r. by destruct st.
  - simpl. rewrite IH. unfold prom_reject, emit. simpl.
    by rewrite <- app_assoc.
Qed.

Lemma rehead_all_lookup (h : string) (q : list nat) (m : gmap nat Config) (r : nat) :
  default empty_config (rehead_all h q m !! r)
  = if bool_decide (r ∈ q)
    then set_header "Authorization" h (default empty_config (m !! r))
    else default empty_config (m !! r).
Proof.
  revert m. induction q as [|x q IH]; intros m; [done|].
  unfold rehead_all in *. simpl. rewrite IH.
  rewrite lookup_insert.
  destruct (decide (x = r)) as [->|Hne].
  - rewrite (bool_decide_eq_true_2 (r ∈ r :: q)) by apply list_elem_of_here.
    simpl. rewrite set_header_idem. by case_bool_decide.
  - case_bool_decide as Hq.
    + rewrite (bool_decide_eq_true_2 (r ∈ x :: q)); [done|].
      by apply list_elem_of_further.
    + rewrite (bool_decide_eq_false_2 (r ∈ x :: q)); [done|].
      intros [?|?]%elem_of_cons; congruence.
Qed.

Lemma foldl_resolve (token : option string) (q : list nat) (st : State) :
  foldl (settle_prom None token) st q
  = mkState (isRefreshing st) (failedQueue st) (awaiting st) (localStorage st)
      (defaults_Authorization st)
      (rehead_all (Bearer (template token)) q (configs st))
      (location_href st)
      (effects st
       ++ map (fun r => Settle Queued r
                          (Replayed (set_header "Authorization"
                                       (Bearer (template token)) (config_of st r)))) q).
Proof.
  revert st. induction q as [|x q IH]; intros st.
  - simpl. rewrite app_nil_r. by destruct st.
  - simpl. rewrite IH. clear IH.
    unfold prom_resolve, set_Authorization, emit. simpl.
    rewrite <- app_assoc. simpl. f_equal. f_equal.
    rewrite config_of_with_config. rewrite decide_True by done.
    f_equal. apply map_ext. intros r.
    unfold config_of at 1. simpl. rewrite lookup_insert.
    case_decide as Hx; [subst; simpl; by rewrite set_header_idem | done].
Qed.

(** *** The handler, step by step *)

Lemma on_rejected_passthrough (st : State) (request : nat) (status : option Z)
    (c : Config) :
  configs st !! request = Some c ->
  status ≠ Some 401%Z ∨ _retry c = true
  ∨ JS.truthy_opt (Storage.getItem "refresh_token" (localStorage st)) = false ->
  on_rejected request status st
  = Some (emit (Settle PassThrough request (Rejected (AxiosError request status))) st).
Proof.
  intros Hc H. unfold on_rejected. rewrite Hc.
  destruct H as [H | [H | H]].
  - by rewrite bool_decide_eq_false_2.
  - rewrite H. simpl. by rewrite andb_false_r.
  - rewrite H. by rewrite andb_false_r.
Qed.

Lemma on_rejected_eligible (st : State) (request : nat) (c : Config) :
  configs st !! request = Some c -> _retry c = false ->
  JS.truthy_opt (Storage.getItem "refresh_token" (localStorage st)) = true ->
  on_rejected request (Some 401%Z) st
  = Some (if isRefreshing st
          then mkState true (failedQueue st ++ [request]) (awaiting st)
                 (localStorage st) (defaults_Authorization st)
                 (<[request := mark_retry c]> (configs st)) (location_href st)
                 (effects st)
          else mkState true (failedQueue st) (awaiting st ++ [request])
                 (localStorage st) (defaults_Authorization st)
                 (<[request := mark_retry c]> (configs st)) (location_href st)
                 (effects st
                  ++ [RefreshPost (Storage.getItem "refresh_token" (localStorage st))])).
Proof.
  intros Hc Hr Ht. unfold on_rejected. rewrite Hc, Hr, Ht.
  rewrite bool_decide_eq_true_2 by done.
  destruct st as [b q w ls d m h l]. simpl. by destruct b.
Qed.

(** The handler either passes the error through or finds the request
    eligible; there is no third way. *)
Lemma on_rejected_cases (st st' : State) (request : nat) (status : option Z) :
  on_rejected request status st = Some st' ->
  (∃ c, configs st !! request = Some c
        ∧ st' = emit (Settle PassThrough request
                        (Rejected (AxiosError request status))) st)
  ∨ (∃ c, configs st !! request = Some c ∧ _retry c = false
          ∧ status = Some 401%Z
          ∧ JS.truthy_opt (Storage.getItem "refresh_token" (localStorage st)) = true).
Proof.
  intros H. unfold on_rejected in H.
  destruct (configs st !! request) as [c|] eqn:Hc; [|discriminate].
  destruct (bool_decide (status = Some 401%Z)) eqn:Hs; simpl in H.
  - destruct (_retry c) eqn:Hr; simpl in H.
    + left. exists c. split; [done|]. congruence.
    + destruct (JS.truthy_opt _) eqn:Ht.
      * right. exists c. apply bool_decide_eq_true_1 in Hs. done.
      * left. exists c. split; [done|]. congruence.
  - left. exists c. split; [done|]. congruence.
Qed.

Lemma on_refresh_settled_awaiting (st st' : State) (request : nat)
    (r : RefreshResult) :
  on_refresh_settled request r st = Some st' -> request ∈ awaiting st.
Proof.
  unfold on_refresh_settled. case_bool_decide; [done | discriminate].
Qed.

Lemma on_refresh_settled_ok (st : State) (request : nat) (token : string) :
  request ∈ awaiting st ->
  on_refresh_settled request (RefreshOk token) st
  = Some (mkState false [] (remove_first request (awaiting st))
            (<["access_token" := token]> (localStorage st))
            (Some (Bearer token))
            (<[request := reheaded token (config_of st request)]>
               (rehead_all (Bearer token) (failedQueue st) (configs st)))
            (location_href st)
            (effects st
             ++ map (fun r => Settle Queued r (Replayed (reheaded token (config_of st r))))
                  (failedQueue st)
             ++ [Settle Refresher request (Replayed (reheaded token (config_of st request)))])).
Proof.
  intros Hin. unfold on_refresh_settled.
  rewrite bool_decide_eq_true_2 by done.
  unfold processQueue. rewrite foldl_resolve.
  destruct st as [b q w ls d m h l]. fields.
  unfold Storage.setItem, reheaded, template.
  rewrite lookup_insert_eq. cbn [default from_option].
  rewrite rehead_all_lookup.
  assert (Hc : set_header "Authorization" (Bearer token)
                 (if bool_decide (request ∈ q)
                  then set_header "Authorization" (Bearer token)
                         (default empty_config (m !! request))
                  else default empty_config (m !! request))
               = set_header "Authorization" (Bearer token)
                   (default empty_config (m !! request))).
  { case_bool_decide; [by rewrite set_header_idem | done]. }
  rewrite Hc, <- app_assoc. reflexivity.
Qed.

Lemma on_refresh_settled_failed (st : State) (request : nat) (e : Error) :
  request ∈ awaiting st ->
  on_refresh_settled request (RefreshFailed e) st
  = Some (mkState false [] (remove_first request (awaiting st))
            (delete "refresh_token" (delete "access_token" (localStorage st)))
            (defaults_Authorization st) (configs st) "/"
            (effects st
             ++ map (fun r => Settle Queued r (Rejected e)) (failedQueue st)
             ++ [Settle Refresher request (Rejected e)])).
Proof.
  intros Hin. unfold on_refresh_settled.
  rewrite bool_decide_eq_true_2 by done.
  unfold processQueue. rewrite foldl_reject.
  destruct st as [b q w ls d m h l]. fields.
  unfold Storage.removeItem.
  rewrite <- app_assoc. reflexivity.
Qed.

(** *** The invariant of a run *)

Lemma count_queue_settled (x : nat) (o : nat -> Outcome) (q : list nat) :
  count (is_settle Queued x) (map (fun r => Settle Queued r (o r)) q)
  = count_occ Nat.eq_dec q x
  ∧ count (is_settle Refresher x) (map (fun r => Settle Queued r (o r)) q) = 0
  ∧ count is_refresh_post (map (fun r => Settle Queued r (o r)) q) = 0
  ∧ count is_refresher_settle (map (fun r => Settle Queued r (o r)) q) = 0.
Proof.
  induction q as [|r q (IH1 & IH2 & IH3 & IH4)]; [done|].
  simpl. rewrite !count_cons, IH1, IH2, IH3, IH4. simpl.
  repeat split; try done.
  destruct (Nat.eq_dec r x) as [->|Hne].
  - by rewrite Nat.eqb_refl.
  - apply Nat.eqb_neq in Hne. by rewrite Hne.
Qed.

Lemma count_settle_round (x request : nat) (o : nat -> Outcome) (o' : Outcome)
    (q : list nat) (l : list Effect) :
  let l' := l ++ map (fun r => Settle Queued r (o r)) q
              ++ [Settle Refresher request o'] in
  count (is_settle Queued x) l'
  = count (is_settle Queued x) l + count_occ Nat.eq_dec q x
  ∧ count (is_settle Refresher x) l'
    = count (is_settle Refresher x) l + count_occ Nat.eq_dec [request] x
  ∧ count is_refresh_post l' = count is_refresh_post l
  ∧ count is_refresher_settle l' = count is_refresher_settle l + 1.
Proof.
  destruct (count_queue_settled x o q) as (H1 & H2 & H3 & H4).
  cbv zeta. rewrite !count_app, H1, H2, H3, H4, !count_cons, !count_nil. simpl.
  repeat split; try lia.
  destruct (Nat.eq_dec request x) as [->|Hne].
  - rewrite Nat.eqb_refl. lia.
  - apply Nat.eqb_neq in Hne. rewrite Hne. lia.
Qed.

Lemma shape_step (st st' : State) (ev : Event) :
  idle st ∨ refreshing st -> step st ev = Some st' -> idle st' ∨ refreshing st'.
Proof.
  intros Hshape Hstep. destruct ev as [request status | request r | a];
    cbn [step] in Hstep.
  - destruct (on_rejected_cases _ _ _ _ Hstep)
      as [(c & Hc & ->) | (c & Hc & Hr & -> & Ht)].
    + exact Hshape.
    + rewrite (on_rejected_eligible st request c Hc Hr Ht) in Hstep.
      injection Hstep as <-. right.
      destruct Hshape as [(Hb & Hw & Hq) | (Hb & r0 & Hw)]; rewrite Hb.
      * split; [done|]. exists request. projections. by rewrite Hw.
      * split; [done|]. exists r0. done.
  - pose proof (on_refresh_settled_awaiting _ _ _ _ Hstep) as Hin.
    left. destruct Hshape as [(Hb & Hw & Hq) | (Hb & r0 & Hw)].
    + rewrite Hw in Hin. by apply elem_of_nil in Hin.
    + assert (request = r0) as ->.
      { rewrite Hw in Hin. by apply list_elem_of_singleton in Hin. }
      destruct r as [token | e].
      * rewrite (on_refresh_settled_ok st r0 token Hin) in Hstep.
        injection Hstep as <-. unfold idle. projections. rewrite Hw.
        cbn [remove_first]. by rewrite Nat.eqb_refl.
      * rewrite (on_refresh_settled_failed st r0 e Hin) in Hstep.
        injection Hstep as <-. unfold idle. projections. rewrite Hw.
        cbn [remove_first]. by rewrite Nat.eqb_refl.
  - injection Hstep as <-. exact Hshape.
Qed.

Lemma uses_unmarked (st : State) (request : nat) (c : Config) :
  once st -> configs st !! request = Some c -> _retry c = false ->
  uses request st = 0.
Proof.
  intros Honce Hc Hr. destruct (Honce request) as [Hle Hm].
  destruct (uses request st) as [|n] eqn:E; [done|].
  assert (H : _retry (config_of st request) = true) by (apply Hm; lia).
  unfold config_of in H. rewrite Hc in H. simpl in H. congruence.
Qed.

Lemma count_occ_snoc (l : list nat) (r x : nat) :
  count_occ Nat.eq_dec (l ++ [r]) x
  = count_occ Nat.eq_dec l x + (if Nat.eq_dec r x then 1 else 0).
Proof. rewrite count_occ_app. simpl. by destruct (Nat.eq_dec r x). Qed.

Lemma once_step (st st' : State) (ev : Event) :
  idle st ∨ refreshing st -> once st -> step st ev = Some st' -> once st'.
Proof.
  intros Hshape Honce Hstep x.
  destruct ev as [request status | request r | a]; cbn [step] in Hstep.
  - destruct (on_rejected_cases _ _ _ _ Hstep)
      as [(c & Hc & ->) | (c & Hc & Hr & -> & Ht)].
    + (* passed through *)
      destruct (Honce x) as [Hle Hm].
      unfold uses, config_of, emit in *. projections.
      rewrite !count_app, !count_cons, !count_nil. cbn [is_settle path_eqb andb].
      split; [lia|]. intros H. apply Hm. lia.
    + (* queued, or the refresh started *)
      rewrite (on_rejected_eligible st request c Hc Hr Ht) in Hstep.
      injection Hstep as <-.
      pose proof (uses_unmarked st request c Honce Hc Hr) as H0.
      destruct (Honce x) as [Hle Hm].
      unfold uses, config_of in *.
      destruct (isRefreshing st); projections;
        rewrite ?count_occ_snoc, ?count_app, ?count_cons, ?count_nil;
        cbn [is_settle]; rewrite lookup_insert;
        (destruct (Nat.eq_dec request x) as [->|Hne];
         [rewrite decide_True by done; split; [lia | done]
         |rewrite decide_False by done; split; [lia | intros H; apply Hm; lia]]).
  - pose proof (on_refresh_settled_awaiting _ _ _ _ Hstep) as Hin.
    destruct Hshape as [(Hb & Hw & Hq) | (Hb & r0 & Hw)].
    { rewrite Hw in Hin. by apply elem_of_nil in Hin. }
    assert (request = r0) as ->.
    { rewrite Hw in Hin. by apply list_elem_of_singleton in Hin. }
    destruct (Honce x) as [Hle Hm].
    destruct r as [token | e].
    + rewrite (on_refresh_settled_ok st r0 token Hin) in Hstep.
      injection Hstep as <-.
      destruct (count_settle_round x r0
                  (fun r => Replayed (reheaded token (config_of st r)))
                  (Replayed (reheaded token (config_of st r0)))
                  (failedQueue st) (effects st)) as (H1 & H2 & _).
      cbv zeta in H1, H2.
      assert (Hu : uses x
                (mkState false [] (remove_first r0 (awaiting st))
                   (<["access_token" := token]> (localStorage st))
                   (Some (Bearer token))
                   (<[r0 := reheaded token (config_of st r0)]>
                      (rehead_all (Bearer token) (failedQueue st) (configs st)))
                   (location_href st)
                   (effects st
                    ++ map (fun r => Settle Queued r
                                       (Replayed (reheaded token (config_of st r))))
                         (failedQueue st)
                    ++ [Settle Refresher r0
                          (Replayed (reheaded token (config_of st r0)))]))
              = uses x st).
      { unfold uses. projections. rewrite H1, H2, Hw.
        cbn [remove_first count_occ]. rewrite Nat.eqb_refl.
        cbn [count_occ]. lia. }
      rewrite Hu. split; [done|]. intros H.
      unfold config_of at 1. projections. rewrite lookup_insert.
      case_decide as Hx.
      * subst x. exact (Hm H).
      * rewrite rehead_all_lookup.
        case_bool_decide; exact (Hm H).
    + rewrite (on_refresh_settled_failed st r0 e Hin) in Hstep.
      injection Hstep as <-.
      destruct (count_settle_round x r0 (fun _ => Rejected e) (Rejected e)
                  (failedQueue st) (effects st)) as (H1 & H2 & _).
      cbv zeta in H1, H2.
      assert (Hu : uses x
                (mkState false [] (remove_first r0 (awaiting st))
                   (delete "refresh_token" (delete "access_token" (localStorage st)))
                   (defaults_Authorization st) (configs st) "/"
                   (effects st
                    ++ map (fun r => Settle Queued r (Rejected e)) (failedQueue st)
                    ++ [Settle Refresher r0 (Rejected e)]))
              = uses x st).
      { unfold uses. projections. rewrite H1, H2, Hw.
        cbn [remove_first count_occ]. rewrite Nat.eqb_refl.
        cbn [count_occ]. lia. }
      rewrite Hu. split; [done|]. exact Hm.
  - injection Hstep as <-. exact (Honce x).
Qed.

(** A request in the queue, or whose handler is suspended, is marked. *)
Lemma waiting_marked (st : State) (r : nat) :
  once st -> r ∈ failedQueue st ∨ r ∈ awaiting st ->
  _retry (config_of st r) = true.
Proof.
  intros Honce Hin. destruct (Honce r) as [_ Hm]. apply Hm.
  unfold uses.
  destruct Hin as [Hin|Hin]; apply list_elem_of_In in Hin;
    apply (count_occ_In Nat.eq_dec) in Hin; lia.
Qed.

Lemma marked_step (st st' : State) (ev : Event) :
  once st -> Forall replay_marked (effects st) -> step st ev = Some st' ->
  Forall replay_marked (effects st').
Proof.
  intros Honce Hall Hstep.
  destruct ev as [request status | request r | a]; cbn [step] in Hstep.
  - destruct (on_rejected_cases _ _ _ _ Hstep)
      as [(c & Hc & ->) | (c & Hc & Hr & -> & Ht)].
    + unfold emit. projections. apply Forall_app. split; [done|].
      by repeat constructor.
    + rewrite (on_rejected_eligible st request c Hc Hr Ht) in Hstep.
      injection Hstep as <-.
      destruct (isRefreshing st); projections; [done|].
      apply Forall_app. split; [done|]. by repeat constructor.
  - pose proof (on_refresh_settled_awaiting _ _ _ _ Hstep) as Hin.
    destruct r as [token | e].
    + rewrite (on_refresh_settled_ok st request token Hin) in Hstep.
      injection Hstep as <-. projections.
      apply Forall_app. split; [done|]. apply Forall_app. split.
      * apply Forall_map, Forall_forall. intros r Hr. split; [done|].
        apply (waiting_marked st r Honce). by left.
      * repeat constructor; [done|].
        apply (waiting_marked st request Honce). by right.
    + rewrite (on_refresh_settled_failed st request e Hin) in Hstep.
      injection Hstep as <-. projections.
      apply Forall_app. split; [done|]. apply Forall_app. split.
      * apply Forall_map, Forall_forall. by intros r Hr.
      * by repeat constructor.
  - injection Hstep as <-. exact Hall.
Qed.

Lemma balanced_step (st st' : State) (ev : Event) :
  idle st ∨ refreshing st -> balanced st -> step st ev = Some st' -> balanced st'.
Proof.
  unfold balanced. intros Hshape Hbal Hstep.
  destruct ev as [request status | request r | a]; cbn [step] in Hstep.
  - destruct (on_rejected_cases _ _ _ _ Hstep)
      as [(c & Hc & ->) | (c & Hc & Hr & -> & Ht)].
    + unfold emit. projections.
      rewrite !count_app, !count_cons, !count_nil.
      cbn [is_refresh_post is_refresher_settle]. lia.
    + rewrite (on_rejected_eligible st request c Hc Hr Ht) in Hstep.
      injection Hstep as <-.
      destruct (isRefreshing st); projections; [done|].
      rewrite !count_app, !count_cons, !count_nil, length_app.
      cbn [is_refresh_post is_refresher_settle length]. lia.
  - pose proof (on_refresh_settled_awaiting _ _ _ _ Hstep) as Hin.
    destruct Hshape as [(Hb & Hw & Hq) | (Hb & r0 & Hw)].
    { rewrite Hw in Hin. by apply elem_of_nil in Hin. }
    assert (request = r0) as ->.
    { rewrite Hw in Hin. by apply list_elem_of_singleton in Hin. }
    rewrite Hw in Hbal. cbn [length] in Hbal.
    destruct r as [token | e].
    + rewrite (on_refresh_settled_ok st r0 token Hin) in Hstep.
      injection Hstep as <-. projections.
      destruct (count_settle_round r0 r0
                  (fun r => Replayed (reheaded token (config_of st r)))
                  (Replayed (reheaded token (config_of st r0)))
                  (failedQueue st) (effects st)) as (_ & _ & H3 & H4).
      cbv zeta in H3, H4. rewrite H3, H4, Hw.
      cbn [remove_first]. rewrite Nat.eqb_refl. cbn [length]. lia.
    + rewrite (on_refresh_settled_failed st r0 e Hin) in Hstep.
      injection Hstep as <-. projections.
      destruct (count_settle_round r0 r0 (fun _ => Rejected e) (Rejected e)
                  (failedQueue st) (effects st)) as (_ & _ & H3 & H4).
      cbv zeta in H3, H4. rewrite H3, H4, Hw.
      cbn [remove_first]. rewrite Nat.eqb_refl. cbn [length]. lia.
  - injection Hstep as <-. exact Hbal.
Qed.

Lemma invariant_step (st st' : State) (ev : Event) :
  invariant st -> step st ev = Some st' -> invariant st'.
Proof.
  intros [Hshape Honce Hall Hbal] Hstep. split.
  - exact (shape_step st st' ev Hshape Hstep).
  - exact (once_step st st' ev Hshape Honce Hstep).
  - exact (marked_step st st' ev Honce Hall Hstep).
  - exact (balanced_step st st' ev Hshape Hbal Hstep).
Qed.

Lemma invariant_run (evs : list Event) (st st' : State) :
  invariant st -> run st evs = Some st' -> invariant st'.
Proof.
  revert st. induction evs as [|ev evs IH]; intros st Hinv Hrun.
  - injection Hrun as <-. exact Hinv.
  - cbn [run] in Hrun. destruct (step st ev) as [st1|] eqn:Hstep; [|discriminate].
    exact (IH st1 (invariant_step st st1 ev Hinv Hstep) Hrun).
Qed.

Lemma invariant_init (ls : gmap string string) (cfgs : gmap nat Config)
    (href : string) :
  invariant (init ls cfgs href).
Proof.
  split.
  - left. by repeat split.
  - intros x. unfold uses, init. projections. cbn. split; [lia | lia].
  - constructor.
  - reflexivity.
Qed.

(** Replays of one request are settlements by the queue or by the
    refreshing handler. *)
Lemma replays_bounded (x : nat) (l : list Effect) :
  Forall replay_marked l ->
  count (is_replay_of x) l
  ≤ count (is_settle Queued x) l + count (is_settle Refresher x) l.
Proof.
  induction 1 as [|e l He Hl IH]; [done|].
  rewrite !count_cons.
  destruct e as [rt | p r [c | err]]; cbn [is_replay_of is_settle]; try lia.
  destruct He as [Hp _].
  destruct p; try done; cbn [path_eqb andb]; destruct (Nat.eqb r x); lia.
Qed.

(** *** Runs *)

Lemma run_app (l1 l2 : list Event) (st : State) :
  run st (l1 ++ l2)
  = match run st l1 with
    | Some st1 => run st1 l2
    | None => None
    end.
Proof.
  revert st. induction l1 as [|ev l1 IH]; intros st; [done|].
  cbn [run app]. destruct (step st ev); [apply IH | done].
Qed.

(** While the flag is up and no refresh settles, the flag stays up and no
    refresh call is made. *)
Lemma quiet_run_refreshing (evs : list Event) (st st' : State) :
  isRefreshing st = true ->
  Forall (fun ev => is_settled_event ev = false) evs ->
  run st evs = Some st' ->
  isRefreshing st' = true
  ∧ count is_refresh_post (effects st') = count is_refresh_post (effects st).
Proof.
  revert st. induction evs as [|ev evs IH]; intros st Hb Hq Hrun.
  - injection Hrun as <-. done.
  - cbn [run] in Hrun. destruct (step st ev) as [st1|] eqn:Hstep; [|discriminate].
    apply Forall_cons in Hq as [Hev Hq].
    assert (H1 : isRefreshing st1 = true
                 ∧ count is_refresh_post (effects st1)
                   = count is_refresh_post (effects st)).
    { destruct ev as [request status | request r | a]; cbn [step] in Hstep.
      - destruct (on_rejected_cases _ _ _ _ Hstep)
          as [(c & Hc & ->) | (c & Hc & Hr & -> & Ht)].
        + unfold emit. projections. split; [done|].
          by rewrite count_app, count_cons, count_nil.
        + rewrite (on_rejected_eligible st request c Hc Hr Ht), Hb in Hstep.
          by injection Hstep as <-.
      - discriminate Hev.
      - by injection Hstep as <-. }
    destruct H1 as [Hb1 Hc1].
    destruct (IH st1 Hb1 Hq Hrun) as [Hb' Hc']. split; [done | congruence].
Qed.

(** Between two settlements, at most one refresh call is made, whatever
    fails and however often. *)
Lemma quiet_run_one_post (evs : list Event) (st st' : State) :
  Forall (fun ev => is_settled_event ev = false) evs ->
  run st evs = Some st' ->
  count is_refresh_post (effects st') ≤ count is_refresh_post (effects st) + 1.
Proof.
  revert st. induction evs as [|ev evs IH]; intros st Hq Hrun.
  - injection Hrun as <-. lia.
  - cbn [run] in Hrun. destruct (step st ev) as [st1|] eqn:Hstep; [|discriminate].
    apply Forall_cons in Hq as [Hev Hq].
    destruct ev as [request status | request r | a]; cbn [step] in Hstep.
    + destruct (on_rejected_cases _ _ _ _ Hstep)
        as [(c & Hc & ->) | (c & Hc & Hr & -> & Ht)].
      * specialize (IH _ Hq Hrun). unfold emit in IH. projections.
        rewrite count_app, count_cons, count_nil in IH.
        cbn [is_refresh_post] in IH. lia.
      * rewrite (on_rejected_eligible st request c Hc Hr Ht) in Hstep.
        injection Hstep as <-.
        destruct (isRefreshing st) eqn:Hb.
        -- specialize (IH _ Hq Hrun). by projections.
        -- apply quiet_run_refreshing in Hrun as [_ Hrun]; [|done|done].
           projections. rewrite Hrun, count_app, count_cons, count_nil.
           cbn [is_refresh_post]. lia.
    + discriminate Hev.
    + injection Hstep as <-. specialize (IH _ Hq Hrun). by projections.
Qed.

(** Eligible requests that fail while the flag is up join the queue, in the
    order of their failures. *)
Lemma queue_run (rs : list nat) (st : State) :
  isRefreshing st = true -> NoDup rs ->
  (∀ x, x ∈ rs -> eligible x st) ->
  ∃ st', run st (map unauthorized rs) = Some st'
         ∧ isRefreshing st' = true
         ∧ failedQueue st' = failedQueue st ++ rs
         ∧ awaiting st' = awaiting st
         ∧ localStorage st' = localStorage st
         ∧ defaults_Authorization st' = defaults_Authorization st
         ∧ location_href st' = location_href st
         ∧ effects st' = effects st
         ∧ (∀ x, config_of st' x
                 = if bool_decide (x ∈ rs) then mark_retry (config_of st x)
                   else config_of st x).
Proof.
  revert st. induction rs as [|r rs IH]; intros st Hb Hnd Hel.
  - exists st. rewrite app_nil_r. by repeat split.
  - apply NoDup_cons in Hnd as [Hr Hnd].
    destruct (Hel r) as [(c & Hc & Hrc) Ht]; [by left|].
    cbn [map run unauthorized step].
    rewrite (on_rejected_eligible st r c Hc Hrc Ht), Hb.
    set (st1 := mkState true (failedQueue st ++ [r]) (awaiting st)
                  (localStorage st) (defaults_Authorization st)
                  (<[r := mark_retry c]> (configs st)) (location_href st)
                  (effects st)).
    destruct (IH st1) as (st' & Hrun & Hb' & Hq' & Hw' & Hls' & Hd' & Hh' & He' & Hc');
      [done | done | |].
    { intros x Hx. destruct (Hel x) as [(cx & Hcx & Hrx) Htx]; [by right|].
      split; [|done]. exists cx. split; [|done].
      subst st1. projections. rewrite lookup_insert_ne; [done|].
      intros ->. done. }
    exists st'. split; [exact Hrun|].
    repeat split; try done.
    + rewrite Hq'. subst st1. projections. by rewrite <- app_assoc.
    + intros x. rewrite Hc'. subst st1. unfold config_of. projections.
      rewrite lookup_insert.
      destruct (decide (r = x)) as [<-|Hne].
      * rewrite (bool_decide_eq_false_2 (r ∈ rs)) by done.
        rewrite (bool_decide_eq_true_2 (r ∈ r :: rs)) by apply list_elem_of_here.
        by rewrite Hc.
      * case_bool_decide as Hx.
        -- rewrite (bool_decide_eq_true_2 (x ∈ r :: rs)); [done|].
           by apply list_elem_of_further.
        -- rewrite (bool_decide_eq_false_2 (x ∈ r :: rs)); [done|].
           intros [?|?]%elem_of_cons; congruence.
Qed.

(** From the idle state, the first failure starts the refresh and the
    others queue behind it. *)
Lemma burst_run (r : nat) (rs : list nat) (st : State) :
  isRefreshing st = false -> NoDup (r :: rs) ->
  (∀ x, x ∈ r :: rs -> eligible x st) ->
  ∃ st', run st (map unauthorized (r :: rs)) = Some st'
         ∧ isRefreshing st' = true
         ∧ failedQueue st' = failedQueue st ++ rs
         ∧ awaiting st' = awaiting st ++ [r]
         ∧ localStorage st' = localStorage st
         ∧ defaults_Authorization st' = defaults_Authorization st
         ∧ location_href st' = location_href st
         ∧ effects st'
           = effects st
             ++ [RefreshPost (Storage.getItem "refresh_token" (localStorage st))]
         ∧ (∀ x, config_of st' x
                 = if bool_decide (x ∈ r :: rs) then mark_retry (config_of st x)
                   else config_of st x).
Proof.
  intros Hb Hnd Hel.
  apply NoDup_cons in Hnd as [Hr Hnd].
  destruct (Hel r) as [(c & Hc & Hrc) Ht]; [by left|].
  cbn [map run unauthorized step].
  rewrite (on_rejected_eligible st r c Hc Hrc Ht), Hb.
  set (st1 := mkState true (failedQueue st) (awaiting st ++ [r])
                (localStorage st) (defaults_Authorization st)
                (<[r := mark_retry c]> (configs st)) (location_href st)
                (effects st
                 ++ [RefreshPost (Storage.getItem "refresh_token" (localStorage st))])).
  destruct (queue_run rs st1) as (st' & Hrun & Hb' & Hq' & Hw' & Hls' & Hd' & Hh' & He' & Hc');
    [done | done | |].
  { intros x Hx. destruct (Hel x) as [(cx & Hcx & Hrx) Htx]; [by right|].
    split; [|done]. exists cx. split; [|done].
    subst st1. projections. rewrite lookup_insert_ne; [done|].
    intros ->. done. }
  exists st'. split; [exact Hrun|].
  repeat split; try done.
  intros x. rewrite Hc'. subst st1. unfold config_of. projections.
  rewrite lookup_insert.
  destruct (decide (r = x)) as [<-|Hne].
  - rewrite (bool_decide_eq_false_2 (r ∈ rs)) by done.
    rewrite (bool_decide_eq_true_2 (r ∈ r :: rs)) by apply list_elem_of_here.
    by rewrite Hc.
  - case_bool_decide as Hx.
    + rewrite (bool_decide_eq_true_2 (x ∈ r :: rs)); [done|].
      by apply list_elem_of_further.
    + rewrite (bool_decide_eq_false_2 (x ∈ r :: rs)); [done|].
      intros [?|?]%elem_of_cons; congruence.
Qed.

End Protocol.

(** ** The claims about the refresh protocol *)

Section Claims.
Import Api.

Lemma count_elem (f : Effect -> bool) (e : Effect) (l : list Effect) :
  e ∈ l -> f e = true -> 1 ≤ count f l.
Proof.
  induction 1 as [e l | e e' l Hin IH]; intros Hf; rewrite count_cons.
  - rewrite Hf. lia.
  - specialize (IH Hf). lia.
Qed.

Lemma marked_in_store (st : State) (request : nat) :
  _retry (config_of st request) = true ->
  ∃ c, configs st !! request = Some c ∧ _retry c = true.
Proof.
  unfold config_of. destruct (configs st !! request) as [c|]; [eauto | done].
Qed.

(** C1: in every run at most one handler is suspended on a refresh call,
    and every refresh call made has settled but for that one; an eligible
    401 that arrives while the flag is up joins the end of the queue and
    starts nothing; between two settlements at most one refresh call is
    made whatever fails; and a burst of eligible failures from the idle
    state makes exactly one, the first request's, the others queueing up in
    the order of their failures. *)
Theorem one_refresh_in_flight :
  (∀ ls cfgs href evs st,
     run (init ls cfgs href) evs = Some st ->
     length (awaiting st) ≤ 1
     ∧ (isRefreshing st = true <-> length (awaiting st) = 1)
     ∧ count is_refresh_post (effects st)
       = count is_refresher_settle (effects st) + length (awaiting st))
  ∧ (∀ st request,
     isRefreshing st = true -> eligible request st ->
     ∃ st', on_rejected request (Some 401%Z) st = Some st'
            ∧ failedQueue st' = failedQueue st ++ [request]
            ∧ awaiting st' = awaiting st
            ∧ effects st' = effects st
            ∧ isRefreshing st' = true)
  ∧ (∀ st evs st',
     Forall (fun ev => is_settled_event ev = false) evs ->
     run st evs = Some st' ->
     count is_refresh_post (effects st')
     ≤ count is_refresh_post (effects st) + 1)
  ∧ (∀ st r rs,
     idle st -> NoDup (r :: rs) -> (∀ x, x ∈ r :: rs -> eligible x st) ->
     ∃ st', run st (map unauthorized (r :: rs)) = Some st'
            ∧ effects st'
              = effects st
                ++ [RefreshPost (Storage.getItem "refresh_token" (localStorage st))]
            ∧ count is_refresh_post (effects st')
              = count is_refresh_post (effects st) + 1
            ∧ failedQueue st' = rs
            ∧ awaiting st' = [r]
            ∧ isRefreshing st' = true).
Proof.
  repeat apply conj.
  - intros ls cfgs href evs st Hrun.
    destruct (invariant_run evs _ st (invariant_init ls cfgs href) Hrun)
      as [Hshape _ _ Hbal].
    destruct Hshape as [(Hb & Hw & _) | (Hb & r0 & Hw)];
      rewrite Hb; unfold balanced in Hbal; rewrite Hw in *; cbn [length] in *;
      (split; [lia | split; [split; [done | lia] | done]]).
  - intros st request Hb [(c & Hc & Hr) Ht].
    rewrite (on_rejected_eligible st request c Hc Hr Ht), Hb.
    eexists. split; [reflexivity|]. by repeat split.
  - intros st evs st' Hq Hrun. exact (quiet_run_one_post evs st st' Hq Hrun).
  - intros st r rs (Hb & Hw & Hq) Hnd Hel.
    destruct (burst_run r rs st Hb Hnd Hel)
      as (st' & Hrun & Hb' & Hq' & Hw' & _ & _ & _ & He' & _).
    exists st'. rewrite Hq in Hq'. rewrite Hw in Hw'.
    repeat split; try done.
    rewrite He', count_app, count_cons, count_nil. cbn [is_refresh_post]. lia.
Qed.

(** C2: in every run a request is replayed at most once; whatever is
    replayed carries the [_retry] mark, and a later 401 of a replayed request
    is rejected to its caller with the state left as it was; the handler
    rejects every failure of a marked request in that way; and a request
    found eligible is marked by the same step that queues it or starts the
    refresh, before any replay. *)
Theorem retried_at_most_once :
  (∀ ls cfgs href evs st request,
     run (init ls cfgs href) evs = Some st ->
     count (is_replay_of request) (effects st) ≤ 1
     ∧ (∀ p c, Settle p request (Replayed c) ∈ effects st ->
          _retry c = true
          ∧ on_rejected request (Some 401%Z) st
            = Some (emit (Settle PassThrough request
                            (Rejected (AxiosError request (Some 401%Z)))) st)))
  ∧ (∀ st request c status,
     configs st !! request = Some c -> _retry c = true ->
     on_rejected request status st
     = Some (emit (Settle PassThrough request
                     (Rejected (AxiosError request status))) st))
  ∧ (∀ st request st',
     eligible request st -> on_rejected request (Some 401%Z) st = Some st' ->
     ∃ c, configs st' !! request = Some c ∧ _retry c = true).
Proof.
  repeat apply conj.
  - intros ls cfgs href evs st request Hrun.
    destruct (invariant_run evs _ st (invariant_init ls cfgs href) Hrun)
      as [_ Honce Hall _].
    destruct (Honce request) as [Hle Hm]. split.
    + pose proof (replays_bounded request _ Hall) as H. unfold uses in Hle. lia.
    + intros p c Hin.
      pose proof (proj1 (Forall_forall _ _) Hall _ Hin) as [Hp Hc].
      split; [exact Hc|].
      assert (Hu : 1 ≤ uses request st).
      { unfold uses. destruct p; [done | |].
        - pose proof (count_elem (is_settle Queued request) _ _ Hin) as H.
          cbn [is_settle path_eqb andb] in H. rewrite Nat.eqb_refl in H.
          specialize (H eq_refl). lia.
        - pose proof (count_elem (is_settle Refresher request) _ _ Hin) as H.
          cbn [is_settle path_eqb andb] in H. rewrite Nat.eqb_refl in H.
          specialize (H eq_refl). lia. }
      destruct (marked_in_store st request (Hm Hu)) as (c' & Hc' & Hr').
      apply (on_rejected_passthrough st request _ c' Hc'). right. by left.
  - intros st request c status Hc Hr.
    apply (on_rejected_passthrough st request status c Hc). right. by left.
  - intros st request st' [(c & Hc & Hr) Ht] Hstep.
    rewrite (on_rejected_eligible st request c Hc Hr Ht) in Hstep.
    injection Hstep as <-. exists (mark_retry c).
    destruct (isRefreshing st); projections; by rewrite lookup_insert_eq.
Qed.

(** C7: a response error with a status other than 401, or of a request
    already marked, or met with no refresh token in the store (absent or
    empty), is rejected to the caller as it came: nothing is queued, no
    refresh call is made, and neither the store nor the flag changes. *)
Theorem other_errors_pass_through (st : State) (request : nat)
    (status : option Z) (c : Config) :
  configs st !! request = Some c ->
  status ≠ Some 401%Z
  ∨ _retry c = true
  ∨ Storage.getItem "refresh_token" (localStorage st) = None
  ∨ Storage.getItem "refresh_token" (localStorage st) = Some EmptyString ->
  ∃ st', on_rejected request status st = Some st'
         ∧ effects st'
           = effects st
             ++ [Settle PassThrough request (Rejected (AxiosError request status))]
         ∧ failedQueue st' = failedQueue st
         ∧ awaiting st' = awaiting st
         ∧ isRefreshing st' = isRefreshing st
         ∧ localStorage st' = localStorage st
         ∧ defaults_Authorization st' = defaults_Authorization st
         ∧ configs st' = configs st
         ∧ location_href st' = location_href st.
Proof.
  intros Hc H. eexists. split.
  - apply (on_rejected_passthrough st request status c Hc).
    destruct H as [H | [H | [H | H]]]; [by left | right; by left | |];
      right; right; by rewrite H.
  - by repeat split.
Qed.

(** The replay on its way out: with the new token in the store, the request
    interceptor leaves the header of the replayed request as the handler set
    it, for a token with no quote at either end. *)
Lemma replay_through_interceptor (token : string) (c : Config)
    (ls : gmap string string) :
  unquoted token = true ->
  headers (request_interceptor (Storage.setItem "access_token" token ls)
             (reheaded token c)) !! "Authorization"
  = Some (Bearer token).
Proof.
  intros Hq. apply String.eqb_eq in Hq.
  rewrite request_interceptor_Authorization.
  unfold Storage.setItem. rewrite lookup_insert_eq.
  cbn -[JS.strip_quotes String.eqb]. rewrite Hq.
  destruct (JS.truthy token && negb (String.eqb token "undefined")); [done|].
  apply header_set_eq.
Qed.

(** C3: when the refresh call resolves with a token, the handler stores
    it under [access_token], sets the default header of the client, resolves
    the queued continuations from the first queued to the last, each
    replaying its own request with the new token in its header, then replays
    the request that started the refresh; and a burst of failures followed
    by a successful refresh replays every request once, the queued ones in the
    order in which they failed. *)
Theorem refresh_success_releases_queue :
  (∀ st request token st',
     on_refresh_settled request (RefreshOk token) st = Some st' ->
     localStorage st' = Storage.setItem "access_token" token (localStorage st)
     ∧ Storage.getItem "access_token" (localStorage st') = Some token
     ∧ defaults_Authorization st' = Some (Bearer token)
     ∧ effects st'
       = effects st
         ++ map (fun r => Settle Queued r (Replayed (reheaded token (config_of st r))))
              (failedQueue st)
         ++ [Settle Refresher request (Replayed (reheaded token (config_of st request)))])
  ∧ (∀ token c,
     headers (reheaded token c) !! "Authorization" = Some (Bearer token)
     ∧ (∀ ls, unquoted token = true ->
          headers (request_interceptor (Storage.setItem "access_token" token ls)
                     (reheaded token c)) !! "Authorization"
          = Some (Bearer token)))
  ∧ (∀ st r rs token,
     idle st -> NoDup (r :: rs) -> (∀ x, x ∈ r :: rs -> eligible x st) ->
     ∃ st', run st (map unauthorized (r :: rs)
                    ++ [RefreshSettled r (RefreshOk token)]) = Some st'
            ∧ effects st'
              = effects st
                ++ [RefreshPost (Storage.getItem "refresh_token" (localStorage st))]
                ++ map (fun x => Settle Queued x
                                   (Replayed (reheaded token
                                                (mark_retry (config_of st x))))) rs
                ++ [Settle Refresher r
                      (Replayed (reheaded token (mark_retry (config_of st r))))]
            ∧ Storage.getItem "access_token" (localStorage st') = Some token
            ∧ defaults_Authorization st' = Some (Bearer token)).
Proof.
  repeat apply conj.
  - intros st request token st' Hstep.
    pose proof (on_refresh_settled_awaiting _ _ _ _ Hstep) as Hin.
    rewrite (on_refresh_settled_ok st request token Hin) in Hstep.
    injection Hstep as <-. projections.
    repeat split. unfold Storage.getItem. apply lookup_insert_eq.
  - intros token c. split; [apply header_set_eq|].
    intros ls Hq. by apply replay_through_interceptor.
  - intros st r rs token (Hb & Hw & Hq) Hnd Hel.
    destruct (burst_run r rs st Hb Hnd Hel)
      as (st1 & Hrun & Hb1 & Hq1 & Hw1 & Hls1 & _ & _ & He1 & Hc1).
    rewrite Hq in Hq1. rewrite Hw in Hw1. cbn [app] in Hq1, Hw1.
    assert (Hin : r ∈ awaiting st1) by (rewrite Hw1; apply list_elem_of_here).
    eexists. rewrite run_app, Hrun. cbn [run step].
    rewrite (on_refresh_settled_ok st1 r token Hin). split; [reflexivity|].
    projections. rewrite He1, Hq1, <- app_assoc.
    repeat split.
    + f_equal. f_equal. f_equal.
      * apply map_ext_in. intros x Hx. rewrite Hc1.
        rewrite bool_decide_eq_true_2; [done|].
        apply list_elem_of_further. by apply list_elem_of_In.
      * rewrite Hc1. rewrite bool_decide_eq_true_2; [done|].
        apply list_elem_of_here.
    + unfold Storage.getItem. apply lookup_insert_eq.
Qed.

(** C4: when the refresh call fails, the handler rejects every queued
    continuation with the refresh error, removes [access_token] and
    [refresh_token] from the store, sets the location to the root, and
    rejects the promise of the request that started the refresh with the
    same error. *)
Theorem refresh_failure_tears_down (st st' : State) (request : nat) (e : Error) :
  on_refresh_settled request (RefreshFailed e) st = Some st' ->
  effects st'
  = effects st
    ++ map (fun r => Settle Queued r (Rejected e)) (failedQueue st)
    ++ [Settle Refresher request (Rejected e)]
  ∧ localStorage st'
    = Storage.removeItem "refresh_token"
        (Storage.removeItem "access_token" (localStorage st))
  ∧ Storage.getItem "access_token" (localStorage st') = None
  ∧ Storage.getItem "refresh_token" (localStorage st') = None
  ∧ location_href st' = "/".
Proof.
  intros Hstep.
  pose proof (on_refresh_settled_awaiting _ _ _ _ Hstep) as Hin.
  rewrite (on_refresh_settled_failed st request e Hin) in Hstep.
  injection Hstep as <-. projections.
  unfold Storage.getItem, Storage.removeItem. repeat split.
  - rewrite lookup_delete_ne by done. apply lookup_delete_eq.
  - apply lookup_delete_eq.
Qed.

(** C10: a settlement, by success or by failure, lowers the flag and
    empties the queue, and in a run it leaves the coordinator idle; no
    request is settled from the queue twice in a run; with the flag down an
    eligible 401 starts a refresh; and the success path leaves the refresh
    token where it was. *)
Theorem settled_refresh_returns_to_idle :
  (∀ st request r st',
     on_refresh_settled request r st = Some st' ->
     isRefreshing st' = false ∧ failedQueue st' = [])
  ∧ (∀ ls cfgs href evs st request r st',
     run (init ls cfgs href) evs = Some st ->
     on_refresh_settled request r st = Some st' ->
     idle st')
  ∧ (∀ ls cfgs href evs st x,
     run (init ls cfgs href) evs = Some st ->
     count (is_settle Queued x) (effects st) ≤ 1)
  ∧ (∀ st request,
     isRefreshing st = false -> eligible request st ->
     ∃ st', on_rejected request (Some 401%Z) st = Some st'
            ∧ isRefreshing st' = true
            ∧ awaiting st' = awaiting st ++ [request]
            ∧ effects st'
              = effects st
                ++ [RefreshPost (Storage.getItem "refresh_token" (localStorage st))])
  ∧ (∀ st request token st',
     on_refresh_settled request (RefreshOk token) st = Some st' ->
     Storage.getItem "refresh_token" (localStorage st')
     = Storage.getItem "refresh_token" (localStorage st)).
Proof.
  repeat apply conj.
  - intros st request r st' Hstep.
    pose proof (on_refresh_settled_awaiting _ _ _ _ Hstep) as Hin.
    destruct r as [token | e].
    + rewrite (on_refresh_settled_ok st request token Hin) in Hstep.
      by injection Hstep as <-.
    + rewrite (on_refresh_settled_failed st request e Hin) in Hstep.
      by injection Hstep as <-.
  - intros ls cfgs href evs st request r st' Hrun Hstep.
    pose proof (invariant_run evs _ st (invariant_init ls cfgs href) Hrun) as Hinv.
    pose proof (on_refresh_settled_awaiting _ _ _ _ Hstep) as Hin.
    destruct (shape_step st st' (RefreshSettled request r) (inv_shape st Hinv) Hstep)
      as [Hidle | [Hb _]]; [exact Hidle|].
    destruct r as [token | e].
    + rewrite (on_refresh_settled_ok st request token Hin) in Hstep.
      injection Hstep as <-. discriminate Hb.
    + rewrite (on_refresh_settled_failed st request e Hin) in Hstep.
      injection Hstep as <-. discriminate Hb.
  - intros ls cfgs href evs st x Hrun.
    destruct (invariant_run evs _ st (invariant_init ls cfgs href) Hrun)
      as [_ Honce _ _].
    destruct (Honce x) as [Hle _]. unfold uses in Hle. lia.
  - intros st request Hb [(c & Hc & Hr) Ht].
    rewrite (on_rejected_eligible st request c Hc Hr Ht), Hb.
    eexists. split; [reflexivity|]. by repeat split.
  - intros st request token st' Hstep.
    pose proof (on_refresh_settled_awaiting _ _ _ _ Hstep) as Hin.
    rewrite (on_refresh_settled_ok st request token Hin) in Hstep.
    injection Hstep as <-. projections.
    unfold Storage.getItem. by rewrite lookup_insert_ne.
Qed.

(** *** The active organization *)

Lemma step_keeps_active_org (st st' : State) (ev : Event) :
  is_coordinator_event ev = true -> step st ev = Some st' ->
  Storage.getItem "active_org_id" (localStorage st')
  = Storage.getItem "active_org_id" (localStorage st).
Proof.
  intros Hev Hstep. unfold Storage.getItem.
  destruct ev as [request status | request r | a]; cbn [step] in Hstep.
  - destruct (on_rejected_cases _ _ _ _ Hstep)
      as [(c & Hc & ->) | (c & Hc & Hr & -> & Ht)]; [done|].
    rewrite (on_rejected_eligible st request c Hc Hr Ht) in Hstep.
    injection Hstep as <-. by destruct (isRefreshing st).
  - pose proof (on_refresh_settled_awaiting _ _ _ _ Hstep) as Hin.
    destruct r as [token | e].
    + rewrite (on_refresh_settled_ok st request token Hin) in Hstep.
      injection Hstep as <-. projections. by rewrite lookup_insert_ne.
    + rewrite (on_refresh_settled_failed st request e Hin) in Hstep.
      injection Hstep as <-. projections. by rewrite !lookup_delete_ne.
  - discriminate Hev.
Qed.

Lemma run_keeps_active_org (evs : list Event) (st st' : State) :
  Forall (fun ev => is_coordinator_event ev = true) evs ->
  run st evs = Some st' ->
  Storage.getItem "active_org_id" (localStorage st')
  = Storage.getItem "active_org_id" (localStorage st).
Proof.
  revert st. induction evs as [|ev evs IH]; intros st Hall Hrun.
  - by injection Hrun as <-.
  - cbn [run] in Hrun. destruct (step st ev) as [st1|] eqn:Hstep; [|discriminate].
    apply Forall_cons in Hall as [Hev Hall].
    rewrite (IH st1 Hall Hrun). exact (step_keeps_active_org st st1 ev Hev Hstep).
Qed.

(** C8, as the code has it: no step of the response handler, and no
    settlement of a refresh, by success or by failure, changes the stored
    active organization id, nor does a whole run of such steps; a login leaves
    it alone too; and a page action that changes it is a switch to an
    organization, the removal of one, the creation of one (which becomes the
    active one), or the logout (which clears the whole store). *)
Theorem active_org_survives_refresh :
  (∀ st ev st',
     is_coordinator_event ev = true -> step st ev = Some st' ->
     Storage.getItem "active_org_id" (localStorage st')
     = Storage.getItem "active_org_id" (localStorage st))
  ∧ (∀ st evs st',
     Forall (fun ev => is_coordinator_event ev = true) evs ->
     run st evs = Some st' ->
     Storage.getItem "active_org_id" (localStorage st')
     = Storage.getItem "active_org_id" (localStorage st))
  ∧ (∀ a ls,
     Storage.getItem "active_org_id" (Pages.perform a ls)
     ≠ Storage.getItem "active_org_id" ls ->
     Pages.is_switch_or_removal a = true
     ∨ (∃ newOrg, a = Pages.CreateOrg newOrg)
     ∨ a = Pages.Logout)
  ∧ (∀ newOrg ls,
     Storage.getItem "active_org_id" (Pages.perform (Pages.CreateOrg newOrg) ls)
     = Some (id newOrg))
  ∧ (∀ ls,
     Storage.getItem "active_org_id" (Pages.perform Pages.Logout ls) = None).
Proof.
  repeat apply conj.
  - intros st ev st'. apply step_keeps_active_org.
  - intros st evs st'. apply run_keeps_active_org.
  - intros a ls H. destruct a; cbn [Pages.is_switch_or_removal]; eauto.
    exfalso. apply H. unfold Storage.getItem. cbn [Pages.perform].
    by apply login_store_other.
  - intros newOrg ls. unfold Storage.getItem. apply lookup_insert_eq.
  - intros ls. unfold Storage.getItem. apply lookup_empty.
Qed.

(** C8, as stated, fails on the logout: it is neither a switch nor a
    removal of an organization, and it clears the stored id. *)
Lemma logout_clears_active_org :
  Storage.getItem "active_org_id" demo_storage = Some "org-7"
  ∧ Storage.getItem "active_org_id" (Pages.perform Pages.Logout demo_storage) = None
  ∧ Pages.is_switch_or_removal Pages.Logout = false.
Proof. repeat split. Qed.

(** *** The claims on the small session *)

Example demo_burst :
  run demo_state (map unauthorized [1; 2; 3]) = Some refreshing_demo.
Proof. vm_compute. reflexivity. Qed.

(** The refresh answers with [T2]: the queued requests 2 and 3 are
    replayed in that order, then request 1, each with the new header. *)
Example demo_success :
  effects <$> run demo_state (map unauthorized [1; 2; 3]
                              ++ [RefreshSettled 1 (RefreshOk "T2")])
  = Some [RefreshPost (Some "r1");
          Settle Queued 2 (Replayed (mkConfig true {[ "Authorization" := "Bearer T2" ]}));
          Settle Queued 3 (Replayed (mkConfig true {[ "Authorization" := "Bearer T2" ]}));
          Settle Refresher 1 (Replayed (mkConfig true {[ "Authorization" := "Bearer T2" ]}))].
Proof. vm_compute. reflexivity. Qed.

(** The replay of request 2 fails with 401 again: it is rejected, and no
    second refresh call is made.  Request 3 had not failed before the
    refresh settled: its 401 starts the next refresh. *)
Example demo_second_failure :
  (fun st => (isRefreshing st, failedQueue st, awaiting st, drop 3 (effects st)))
    <$> run demo_state [unauthorized 1; unauthorized 2;
                        RefreshSettled 1 (RefreshOk "T2");
                        unauthorized 2; unauthorized 3]
  = Some (true, [], [3],
          [Settle PassThrough 2 (Rejected (AxiosError 2 (Some 401%Z)));
           RefreshPost (Some "r1")]).
Proof. vm_compute. reflexivity. Qed.

(** The refresh fails: everyone is rejected with its error, the tokens are
    gone, the organization stays. *)
Example demo_failure :
  (fun st => (effects st, map_to_list (localStorage st), location_href st))
    <$> run demo_state (map unauthorized [1; 2; 3]
                        ++ [RefreshSettled 1 (RefreshFailed demo_error)])
  = Some ([RefreshPost (Some "r1");
           Settle Queued 2 (Rejected demo_error);
           Settle Queued 3 (Rejected demo_error);
           Settle Refresher 1 (Rejected demo_error)],
          [("active_org_id", "org-7")], "/").
Proof. vm_compute. reflexivity. Qed.

(** No step is enabled for a settlement that no handler awaits. *)
Example demo_no_settlement_when_idle :
  step demo_state (RefreshSettled 1 (RefreshOk "T2")) = None.
Proof. vm_compute. reflexivity. Qed.

Lemma demo_idle : idle demo_state.
Proof. by repeat split. Qed.

Lemma demo_NoDup : NoDup [1; 2; 3].
Proof. apply (bool_decide_unpack _). vm_compute. exact I. Qed.

Lemma demo_eligible (x : nat) : x ∈ [1; 2; 3] -> eligible x demo_state.
Proof.
  revert x. apply Forall_forall.
  repeat constructor;
    (exists demo_config; split; [vm_compute; reflexivity | reflexivity])
    || (vm_compute; reflexivity).
Qed.

Lemma one_refresh_in_flight_witness :
  ∃ st', run demo_state (map unauthorized [1; 2; 3]) = Some st'
         ∧ effects st'
           = effects demo_state
             ++ [RefreshPost (Storage.getItem "refresh_token" (localStorage demo_state))]
         ∧ count is_refresh_post (effects st')
           = count is_refresh_post (effects demo_state) + 1
         ∧ failedQueue st' = [2; 3]
         ∧ awaiting st' = [1]
         ∧ isRefreshing st' = true.
Proof.
  exact (proj2 (proj2 (proj2 one_refresh_in_flight)) demo_state 1 [2; 3]
           demo_idle demo_NoDup demo_eligible).
Defined.

Lemma retried_at_most_once_witness :
  on_rejected 1 (Some 401%Z) refreshing_demo
  = Some (emit (Settle PassThrough 1 (Rejected (AxiosError 1 (Some 401%Z))))
            refreshing_demo).
Proof.
  apply (proj1 (proj2 retried_at_most_once) refreshing_demo 1
           (mark_retry demo_config) (Some 401%Z)).
  - vm_compute. reflexivity.
  - reflexivity.
Defined.

Lemma refresh_success_releases_queue_witness :
  ∃ st', run demo_state (map unauthorized [1; 2; 3]
                         ++ [RefreshSettled 1 (RefreshOk "new")]) = Some st'
         ∧ effects st'
           = effects demo_state
             ++ [RefreshPost (Storage.getItem "refresh_token" (localStorage demo_state))]
             ++ map (fun x => Settle Queued x
                                (Replayed (reheaded "new"
                                             (mark_retry (config_of demo_state x)))))
                  [2; 3]
             ++ [Settle Refresher 1
                   (Replayed (reheaded "new" (mark_retry (config_of demo_state 1))))]
         ∧ Storage.getItem "access_token" (localStorage st') = Some "new"
         ∧ defaults_Authorization st' = Some (Bearer "new").
Proof.
  exact (proj2 (proj2 refresh_success_releases_queue) demo_state 1 [2; 3] "new"
           demo_idle demo_NoDup demo_eligible).
Defined.

Lemma refresh_failure_tears_down_witness :
  ∃ st', on_refresh_settled 1 (RefreshFailed demo_error) refreshing_demo = Some st'
         ∧ effects st'
           = effects refreshing_demo
             ++ map (fun r => Settle Queued r (Rejected demo_error)) [2; 3]
             ++ [Settle Refresher 1 (Rejected demo_error)]
         ∧ localStorage st'
           = Storage.removeItem "refresh_token"
               (Storage.removeItem "access_token" demo_storage)
         ∧ Storage.getItem "access_token" (localStorage st') = None
         ∧ Storage.getItem "refresh_token" (localStorage st') = None
         ∧ location_href st' = "/".
Proof.
  eexists. split; [vm_compute; reflexivity|].
  apply (refresh_failure_tears_down refreshing_demo _ 1 demo_error).
  vm_compute. reflexivity.
Defined.

Lemma other_errors_pass_through_witness :
  ∃ st', on_rejected 2 (Some 500%Z) demo_state = Some st'
         ∧ effects st'
           = effects demo_state
             ++ [Settle PassThrough 2 (Rejected (AxiosError 2 (Some 500%Z)))]
         ∧ failedQueue st' = failedQueue demo_state
         ∧ awaiting st' = awaiting demo_state
         ∧ isRefreshing st' = isRefreshing demo_state
         ∧ localStorage st' = localStorage demo_state
         ∧ defaults_Authorization st' = defaults_Authorization demo_state
         ∧ configs st' = configs demo_state
         ∧ location_href st' = location_href demo_state.
Proof.
  apply (other_errors_pass_through demo_state 2 (Some 500%Z) demo_config).
  - vm_compute. reflexivity.
  - left. discriminate.
Defined.

Lemma active_org_survives_refresh_witness :
  ∃ st', run demo_state (map unauthorized [1; 2; 3]
                         ++ [RefreshSettled 1 (RefreshFailed demo_error)]) = Some st'
         ∧ Storage.getItem "access_token" (localStorage st') = None
         ∧ Storage.getItem "active_org_id" (localStorage st')
           = Storage.getItem "active_org_id" (localStorage demo_state).
Proof.
  eexists. split; [vm_compute; reflexivity|]. split; [vm_compute; reflexivity|].
  apply (proj1 (proj2 active_org_survives_refresh) demo_state
           (map unauthorized [1; 2; 3]
            ++ [RefreshSettled 1 (RefreshFailed demo_error)])).
  - repeat constructor.
  - vm_compute. reflexivity.
Defined.

Lemma settled_refresh_returns_to_idle_witness :
  ∃ st', on_refresh_settled 1 (RefreshOk "new") refreshing_demo = Some st'
         ∧ idle st'.
Proof.
  eexists. split; [vm_compute; reflexivity|].
  apply (proj1 (proj2 settled_refresh_returns_to_idle) demo_storage
           {[ 1 := demo_config; 2 := demo_config; 3 := demo_config ]} "/orgs"
           (map unauthorized [1; 2; 3]) refreshing_demo 1 (RefreshOk "new")).
  - exact demo_burst.
  - vm_compute. reflexivity.
Defined.

(** *** The refresh call after a login *)

(** The refresh call carries the stored refresh token as it is read, and
    login stored it through [JSON.stringify]: the body holds the token of the
    login inside a pair of quotes. *)
Theorem refresh_post_after_login (access_token refresh_token href : string)
    (ls : gmap string string) (cfgs : gmap nat Config) (request : nat)
    (c : Config) :
  cfgs !! request = Some c -> _retry c = false ->
  effects <$> run (init (login_store access_token refresh_token ls) cfgs href)
                [unauthorized request]
  = Some [RefreshPost (Some (JS.JSON_stringify refresh_token))].
Proof.
  intros Hc Hr.
  assert (Hls : Storage.getItem "refresh_token"
                  (login_store access_token refresh_token ls)
                = Some (JS.JSON_stringify refresh_token)).
  { unfold login_store, Storage.getItem, Storage.setItem.
    apply lookup_insert_eq. }
  cbn [run step unauthorized].
  rewrite (on_rejected_eligible _ request c); [| exact Hc | exact Hr |].
  - unfold init. projections. cbn [fmap option_fmap option_map run effects app].
    by rewrite Hls.
  - unfold init. projections. by rewrite Hls.
Qed.

Lemma refresh_post_after_login_witness :
  effects <$> run (init (login_store "a1" "r1" ∅) {[ 1 := demo_config ]} "/orgs")
                [unauthorized 1]
  = Some [RefreshPost (Some (String JS.dquote ("r1" +:+ String JS.dquote EmptyString)))].
Proof.
  apply (refresh_post_after_login "a1" "r1" "/orgs" ∅ {[ 1 := demo_config ]} 1
           demo_config); reflexivity.
Defined.

End Claims.

(** * Further properties of the code *)

(** ** The request interceptor *)

Lemma set_header_twice (k v : string) (k' v' : string) (c : Config) :
  set_header k' v' (set_header k v (set_header k' v' (set_header k v c)))
  = set_header k' v' (set_header k v c).
Proof.
  unfold set_header. cbn [_retry headers]. f_equal.
  apply map_eq. intros j. rewrite !lookup_insert.
  repeat case_decide; congruence.
Qed.

(** A replayed request passes the interceptor a second time; the second
    pass changes nothing. *)
Theorem request_interceptor_idempotent (ls : gmap string string) (config : Config) :
  request_interceptor ls (request_interceptor ls config)
  = request_interceptor ls config.
Proof.
  unfold request_interceptor.
  destruct (JS.strip_quotes <$> Storage.getItem "access_token" ls) as [t|];
    [destruct (JS.truthy t && negb (String.eqb t "undefined"))|];
    (destruct (JS.strip_quotes <$> Storage.getItem "active_org_id" ls) as [o|];
     [destruct (JS.truthy o)|]);
    try reflexivity;
    try apply set_header_idem.
  apply set_header_twice.
Qed.

(** The interceptor writes the two headers and nothing else: every other
    header and the [_retry] mark are as it found them. *)
Theorem request_interceptor_frame (ls : gmap string string) (config : Config) :
  _retry (request_interceptor ls config) = _retry config
  ∧ ∀ k, k ≠ "Authorization" -> k ≠ "X-Org-ID" ->
      headers (request_interceptor ls config) !! k = headers config !! k.
Proof.
  unfold request_interceptor.
  destruct (JS.strip_quotes <$> Storage.getItem "access_token" ls) as [t|];
    [destruct (JS.truthy t && negb (String.eqb t "undefined"))|];
    (destruct (JS.strip_quotes <$> Storage.getItem "active_org_id" ls) as [o|];
     [destruct (JS.truthy o)|]);
    (split; [reflexivity|]); intros k H1 H2;
    rewrite ?header_set_ne by done; reflexivity.
Qed.

Lemma strip_trailing_quote_shape (s : string) :
  ∃ b, s = JS.strip_trailing_quote s +:+ b
       ∧ (b = EmptyString ∨ b = String JS.dquote EmptyString).
Proof.
  induction s as [|c s IH].
  - exists EmptyString. by split; [|left].
  - destruct s as [|c' s'].
    + cbn [JS.strip_trailing_quote]. destruct (Ascii.eqb c JS.dquote) eqn:E.
      * apply Ascii.eqb_eq in E as ->. exists (String JS.dquote EmptyString).
        by split; [|right].
      * exists EmptyString. by split; [|left].
    + destruct IH as (b & Hb & Hq). exists b. split; [|exact Hq].
      change (String c (String c' s')
              = String c (JS.strip_trailing_quote (String c' s') +:+ b)).
      by rewrite <- Hb.
Qed.

(** The stripping takes at most one double quote off each end and leaves
    the text between them as it is. *)
Theorem strip_quotes_shape (s : string) :
  ∃ a b, s = a +:+ JS.strip_quotes s +:+ b
         ∧ (a = EmptyString ∨ a = String JS.dquote EmptyString)
         ∧ (b = EmptyString ∨ b = String JS.dquote EmptyString).
Proof.
  destruct s as [|c s].
  - exists EmptyString, EmptyString. by repeat split; left.
  - unfold JS.strip_quotes. destruct (Ascii.eqb c JS.dquote) eqn:E.
    + apply Ascii.eqb_eq in E as ->.
      destruct (strip_trailing_quote_shape s) as (b & Hb & Hq).
      exists (String JS.dquote EmptyString), b.
      split; [|split; [by right | exact Hq]].
      change (String JS.dquote s
              = String JS.dquote (JS.strip_trailing_quote s +:+ b)).
      by rewrite <- Hb.
    + destruct (strip_trailing_quote_shape (String c s)) as (b & Hb & Hq).
      exists EmptyString, b. split; [|split; [by left | exact Hq]].
      exact Hb.
Qed.

(** ** The refresh protocol, further *)

Section MoreProtocol.
Import Api.

(** The rejection handler itself never writes the store, the default header
    or the location, whatever the failure: only the settlement of a refresh
    does. *)
Theorem handler_never_writes_store (st st' : State) (request : nat)
    (status : option Z) :
  on_rejected request status st = Some st' ->
  localStorage st' = localStorage st
  ∧ defaults_Authorization st' = defaults_Authorization st
  ∧ location_href st' = location_href st.
Proof.
  intros Hstep.
  destruct (on_rejected_cases _ _ _ _ Hstep)
    as [(c & Hc & ->) | (c & Hc & Hr & -> & Ht)]; [done|].
  rewrite (on_rejected_eligible st request c Hc Hr Ht) in Hstep.
  injection Hstep as <-. by destruct (isRefreshing st).
Qed.

Lemma handler_never_writes_store_witness :
  ∃ st', on_rejected 1 (Some 401%Z) demo_state = Some st'
         ∧ localStorage st' = localStorage demo_state
         ∧ defaults_Authorization st' = defaults_Authorization demo_state
         ∧ location_href st' = location_href demo_state.
Proof.
  eexists. split; [vm_compute; reflexivity|].
  apply (handler_never_writes_store demo_state _ 1 (Some 401%Z)).
  vm_compute. reflexivity.
Defined.

Lemma logged_out_run (evs : list Event) (st st' : State) :
  JS.truthy_opt (Storage.getItem "refresh_token" (localStorage st)) = false ->
  Forall (fun ev => is_response_error ev = true) evs ->
  run st evs = Some st' ->
  localStorage st' = localStorage st
  ∧ isRefreshing st' = isRefreshing st
  ∧ failedQueue st' = failedQueue st
  ∧ count is_refresh_post (effects st') = count is_refresh_post (effects st).
Proof.
  revert st. induction evs as [|ev evs IH]; intros st Ht Hall Hrun.
  - by injection Hrun as <-.
  - cbn [run] in Hrun. destruct (step st ev) as [st1|] eqn:Hstep; [|discriminate].
    apply Forall_cons in Hall as [Hev Hall].
    destruct ev as [request status | request r | a]; try discriminate Hev.
    cbn [step] in Hstep.
    destruct (on_rejected_cases _ _ _ _ Hstep)
      as [(c & Hc & ->) | (c & Hc & Hr & -> & Ht')]; [|congruence].
    destruct (IH (emit (Settle PassThrough request
                          (Rejected (AxiosError request status))) st)
                Ht Hall Hrun) as (H1 & H2 & H3 & H4).
    unfold emit in H1, H2, H3, H4. projections.
    rewrite count_app, count_cons, count_nil in H4. cbn [is_refresh_post] in H4.
    repeat split; try done. lia.
Qed.

(** After a failed refresh the tokens are gone, and failures alone start no
    further refresh: whatever requests fail next, with whatever status, no
    refresh call is made, nothing is queued and the store stays as the
    teardown left it. *)
Theorem no_refresh_after_teardown (st st1 st2 : State) (request : nat)
    (e : Error) (evs : list Event) :
  on_refresh_settled request (RefreshFailed e) st = Some st1 ->
  Forall (fun ev => is_response_error ev = true) evs ->
  run st1 evs = Some st2 ->
  count is_refresh_post (effects st2) = count is_refresh_post (effects st1)
  ∧ isRefreshing st2 = false
  ∧ failedQueue st2 = []
  ∧ localStorage st2 = localStorage st1.
Proof.
  intros Hstep Hall Hrun.
  pose proof (on_refresh_settled_awaiting _ _ _ _ Hstep) as Hin.
  rewrite (on_refresh_settled_failed st request e Hin) in Hstep.
  injection Hstep as <-.
  match type of Hrun with run ?s _ = _ => set (st1 := s) in * end.
  destruct (logged_out_run evs st1 st2) as (H1 & H2 & H3 & H4); try done.
  subst st1. projections. unfold Storage.getItem. by rewrite lookup_delete_eq.
Qed.

Lemma no_refresh_after_teardown_witness :
  ∃ st1 st2,
    on_refresh_settled 1 (RefreshFailed demo_error) refreshing_demo = Some st1
    ∧ run st1 [unauthorized 2; ResponseError 3 (Some 500%Z); unauthorized 1]
      = Some st2
    ∧ count is_refresh_post (effects st2) = count is_refresh_post (effects st1)
    ∧ isRefreshing st2 = false
    ∧ failedQueue st2 = []
    ∧ localStorage st2 = localStorage st1.
Proof.
  eexists. eexists. split; [vm_compute; reflexivity|].
  split; [vm_compute; reflexivity|].
  apply (no_refresh_after_teardown refreshing_demo _ _ 1 demo_error
           [unauthorized 2; ResponseError 3 (Some 500%Z); unauthorized 1]).
  - vm_compute. reflexivity.
  - repeat constructor.
  - vm_compute. reflexivity.
Defined.

Lemma quiet_step_stalls (st st' : State) (ev : Event) :
  is_settled_event ev = false -> step st ev = Some st' ->
  (∃ more, failedQueue st' = failedQueue st ++ more)
  ∧ ∀ x, count (is_settle Queued x) (effects st')
         = count (is_settle Queued x) (effects st)
         ∧ count (is_settle Refresher x) (effects st')
           = count (is_settle Refresher x) (effects st).
Proof.
  intros Hev Hstep.
  destruct ev as [request status | request r | a]; cbn [step] in Hstep.
  - destruct (on_rejected_cases _ _ _ _ Hstep)
      as [(c & Hc & ->) | (c & Hc & Hr & -> & Ht)].
    + split; [exists []; by rewrite app_nil_r|].
      intros x. unfold emit. projections.
      rewrite !count_app, !count_cons, !count_nil.
      cbn [is_settle path_eqb andb]. lia.
    + rewrite (on_rejected_eligible st request c Hc Hr Ht) in Hstep.
      injection Hstep as <-. destruct (isRefreshing st); projections.
      * split; [by exists [request] | done].
      * split; [exists []; by rewrite app_nil_r|].
        intros x. rewrite !count_app, !count_cons, !count_nil.
        cbn [is_settle]. lia.
  - discriminate Hev.
  - injection Hstep as <-. projections.
    split; [exists []; by rewrite app_nil_r | done].
Qed.

(** While the refresh call is pending nothing is released: in a run without
    a settlement the queue only grows at its end, and no request is settled
    from the queue or replayed by the refreshing handler. *)
Theorem pending_refresh_stalls_queue (evs : list Event) (st st' : State) :
  Forall (fun ev => is_settled_event ev = false) evs ->
  run st evs = Some st' ->
  (∃ more, failedQueue st' = failedQueue st ++ more)
  ∧ ∀ x, count (is_settle Queued x) (effects st')
         = count (is_settle Queued x) (effects st)
         ∧ count (is_settle Refresher x) (effects st')
           = count (is_settle Refresher x) (effects st).
Proof.
  revert st. induction evs as [|ev evs IH]; intros st Hall Hrun.
  - injection Hrun as <-. split; [exists []; by rewrite app_nil_r | done].
  - cbn [run] in Hrun. destruct (step st ev) as [st1|] eqn:Hstep; [|discriminate].
    apply Forall_cons in Hall as [Hev Hall].
    destruct (quiet_step_stalls st st1 ev Hev Hstep) as [[m1 Hq1] Hc1].
    destruct (IH st1 Hall Hrun) as [[m2 Hq2] Hc2].
    split.
    + exists (m1 ++ m2). by rewrite Hq2, Hq1, <- app_assoc.
    + intros x. destruct (Hc1 x) as [H1 H2]. destruct (Hc2 x) as [H3 H4].
      split; congruence.
Qed.

Lemma pending_refresh_stalls_queue_witness :
  ∃ st', run refreshing_demo
           [ResponseError 2 (Some 401%Z); Page Pages.Logout;
            ResponseError 3 (Some 503%Z)] = Some st'
         ∧ (∃ more, failedQueue st' = failedQueue refreshing_demo ++ more)
         ∧ ∀ x, count (is_settle Queued x) (effects st')
                = count (is_settle Queued x) (effects refreshing_demo)
                ∧ count (is_settle Refresher x) (effects st')
                  = count (is_settle Refresher x) (effects refreshing_demo).
Proof.
  eexists. split; [vm_compute; reflexivity|].
  apply (pending_refresh_stalls_queue
           [ResponseError 2 (Some 401%Z); Page Pages.Logout;
            ResponseError 3 (Some 503%Z)] refreshing_demo).
  - repeat constructor.
  - vm_compute. reflexivity.
Defined.

(** After a successful refresh every later request carries the new token:
    the interceptor reads it from the store (for a token that is not empty,
    not the sentinel, and has no quote at either end). *)
Theorem new_token_used_after_refresh (st st' : State) (request : nat)
    (token : string) (config : Config) :
  on_refresh_settled request (RefreshOk token) st = Some st' ->
  unquoted token = true -> token ≠ EmptyString -> token ≠ "undefined" ->
  headers (request_interceptor (localStorage st') config) !! "Authorization"
  = Some (Bearer token).
Proof.
  intros Hstep Hq Hne Hund.
  pose proof (on_refresh_settled_awaiting _ _ _ _ Hstep) as Hin.
  rewrite (on_refresh_settled_ok st request token Hin) in Hstep.
  injection Hstep as <-. projections.
  rewrite request_interceptor_Authorization, lookup_insert_eq.
  cbn -[JS.strip_quotes String.eqb].
  apply String.eqb_eq in Hq. rewrite Hq.
  apply truthy_true in Hne. apply String.eqb_neq in Hund.
  by rewrite Hne, Hund.
Qed.

Lemma new_token_used_after_refresh_witness :
  ∃ st', on_refresh_settled 1 (RefreshOk "T2") refreshing_demo = Some st'
         ∧ headers (request_interceptor (localStorage st') (mkConfig false ∅))
             !! "Authorization" = Some (Bearer "T2").
Proof.
  eexists. split; [vm_compute; reflexivity|].
  apply (new_token_used_after_refresh refreshing_demo _ 1 "T2" (mkConfig false ∅));
    [vm_compute; reflexivity | reflexivity | discriminate | discriminate].
Defined.

(** ** The route guard *)

(** Whatever tokens the login received, the guard admits afterwards: what
    is stored starts with the quote that [JSON.stringify] wrote, so it is
    never empty, not even for an empty token. *)
Theorem guard_after_login (access_token refresh_token : string)
    (ls : gmap string string) :
  Route.ProtectedRoute (login_store access_token refresh_token ls)
  = Route.Children.
Proof.
  unfold Route.ProtectedRoute, Route.isAuthenticated, login_store,
    Storage.getItem, Storage.setItem.
  rewrite lookup_insert_ne by done. by rewrite lookup_insert_eq.
Qed.

(** The two ends of a session, the logout and the failure of a refresh,
    both leave the guard redirecting to the root. *)
Theorem session_end_redirects :
  (∀ ls, Route.ProtectedRoute (Pages.logout ls) = Route.Navigate "/")
  ∧ (∀ st request e st',
       on_refresh_settled request (RefreshFailed e) st = Some st' ->
       Route.ProtectedRoute (localStorage st') = Route.Navigate "/"
       ∧ location_href st' = "/").
Proof.
  split.
  - intros ls. unfold Route.ProtectedRoute, Route.isAuthenticated, Pages.logout,
      Storage.clear, Storage.getItem. by rewrite lookup_empty.
  - intros st request e st' Hstep.
    pose proof (on_refresh_settled_awaiting _ _ _ _ Hstep) as Hin.
    rewrite (on_refresh_settled_failed st request e Hin) in Hstep.
    injection Hstep as <-. projections. split; [|done].
    unfold Route.ProtectedRoute, Route.isAuthenticated, Storage.getItem.
    rewrite lookup_delete_ne by done. by rewrite lookup_delete_eq.
Qed.

Lemma session_end_redirects_witness :
  ∃ st', on_refresh_settled 1 (RefreshFailed demo_error) refreshing_demo = Some st'
         ∧ Route.ProtectedRoute (localStorage st') = Route.Navigate "/"
         ∧ location_href st' = "/".
Proof.
  eexists. split; [vm_compute; reflexivity|].
  apply (proj2 session_end_redirects refreshing_demo 1 demo_error).
  vm_compute. reflexivity.
Defined.

(** The guard and the interceptor read the same key differently: a stored
    value that is not empty but strips to nothing or to [undefined] passes the
    guard, and the requests behind it go out with no [Authorization] of the
    interceptor's. *)
Theorem guard_admits_unusable_token (ls : gmap string string) (config : Config)
    (raw : string) :
  Storage.getItem "access_token" ls = Some raw ->
  raw ≠ EmptyString ->
  JS.strip_quotes raw = EmptyString ∨ JS.strip_quotes raw = "undefined" ->
  Route.ProtectedRoute ls = Route.Children
  ∧ headers (request_interceptor ls config) !! "Authorization"
    = headers config !! "Authorization".
Proof.
  unfold Storage.getItem. intros Hraw Hne Hs. split.
  - unfold Route.ProtectedRoute, Route.isAuthenticated, Storage.getItem.
    rewrite Hraw. cbn [JS.truthy_opt]. apply truthy_true in Hne. by rewrite Hne.
  - rewrite request_interceptor_Authorization, Hraw.
    cbn -[JS.strip_quotes String.eqb]. by destruct Hs as [-> | ->].
Qed.

Lemma guard_admits_unusable_token_witness :
  Route.ProtectedRoute (login_store EmptyString "r1" ∅) = Route.Children
  ∧ headers (request_interceptor (login_store EmptyString "r1" ∅) (mkConfig false ∅))
      !! "Authorization" = headers (mkConfig false ∅) !! "Authorization".
Proof.
  apply (guard_admits_unusable_token (login_store EmptyString "r1" ∅)
           (mkConfig false ∅) (JS.JSON_stringify EmptyString));
    [vm_compute; reflexivity | discriminate | left; reflexivity].
Defined.

End MoreProtocol.

(** ** The organization switcher and the organization page *)

Lemma find_first (f : Organization -> bool) (o : Organization)
    (orgs : list Organization) :
  In o orgs -> f o = true ->
  ∃ o', List.find f orgs = Some o' ∧ In o' orgs ∧ f o' = true.
Proof.
  intros Hin Hf. destruct (List.find f orgs) as [o'|] eqn:E.
  - exists o'. destruct (List.find_some _ _ E). by repeat split.
  - pose proof (List.find_none _ _ E o Hin). congruence.
Qed.

(** After a switch to an organization of the list, the switcher, mounted
    again by the reload, shows the name of that organization (the id and the
    name not empty, and the id naming one organization). *)
Theorem switcher_shows_switched_org (orgs : list Organization) (o : Organization)
    (ls : gmap string string) :
  In o orgs -> id o ≠ EmptyString -> name o ≠ EmptyString ->
  (∀ o', In o' orgs -> id o' = id o -> name o' = name o) ->
  Switcher.currentOrgName orgs (Switcher.mount (Pages.switchOrg (id o) ls))
  = name o.
Proof.
  intros Hin Hid Hname Huniq.
  unfold Switcher.mount, Pages.switchOrg, Storage.getItem, Storage.setItem.
  rewrite lookup_insert_eq. apply truthy_true in Hid. rewrite Hid.
  unfold Switcher.currentOrgName.
  destruct (find_first (Switcher.is_active (Some (id o))) o orgs Hin)
    as (o' & -> & Hin' & Hf'); [apply String.eqb_refl|].
  cbn [Switcher.is_active] in Hf'. apply String.eqb_eq in Hf'.
  cbn [fmap option_fmap option_map]. rewrite (Huniq o' Hin' Hf').
  apply truthy_true in Hname. by rewrite Hname.
Qed.

Lemma switcher_shows_switched_org_witness :
  Switcher.currentOrgName
    [mkOrg "a" "Alpha" "alpha" "2025-01-01"; mkOrg "b" "Beta" "beta" "2025-01-02"]
    (Switcher.mount
       (Pages.switchOrg (id (mkOrg "b" "Beta" "beta" "2025-01-02")) ∅))
  = name (mkOrg "b" "Beta" "beta" "2025-01-02").
Proof.
  apply (switcher_shows_switched_org
           [mkOrg "a" "Alpha" "alpha" "2025-01-01";
            mkOrg "b" "Beta" "beta" "2025-01-02"]
           (mkOrg "b" "Beta" "beta" "2025-01-02") ∅).
  - right. left. reflexivity.
  - discriminate.
  - discriminate.
  - intros o' [<- | [<- | []]]; [discriminate | reflexivity].
Defined.

(** With no active id, or with one that names no organization of the list
    (a deleted one, say), the switcher shows its placeholder. *)
Theorem switcher_placeholder (orgs : list Organization) (activeOrg : option string) :
  (∀ o, In o orgs -> activeOrg ≠ Some (id o)) ->
  Switcher.currentOrgName orgs activeOrg = "Select Org".
Proof.
  intros Hno. unfold Switcher.currentOrgName.
  destruct (List.find (Switcher.is_active activeOrg) orgs) as [o|] eqn:E;
    [|reflexivity].
  destruct (List.find_some _ _ E) as [Hin Hf].
  destruct activeOrg as [a|]; [|discriminate Hf].
  cbn [Switcher.is_active] in Hf. apply String.eqb_eq in Hf.
  exfalso. apply (Hno o Hin). by rewrite Hf.
Qed.

Lemma switcher_placeholder_witness :
  Switcher.currentOrgName [mkOrg "a" "Alpha" "alpha" "2025-01-01"]
    (Switcher.mount (Pages.logout Api.demo_storage)) = "Select Org".
Proof.
  apply (switcher_placeholder [mkOrg "a" "Alpha" "alpha" "2025-01-01"]
           (Switcher.mount (Pages.logout Api.demo_storage))).
  intros o _. discriminate.
Defined.

(** When the page knows the deleted organization to be the active one, the
    store never keeps its id: it holds afterwards the non-empty id of another
    organization of the list, or none. *)
Theorem deleted_org_not_left_active (organizations : list Organization)
    (org : Organization) (ls : gmap string string) :
  let ls' := Pages.handleDeleteOrg_store (Some (id org)) organizations org ls in
  Storage.getItem "active_org_id" ls' ≠ Some (id org)
  ∧ ∀ n, Storage.getItem "active_org_id" ls' = Some n ->
         n ≠ EmptyString ∧ n ≠ id org
         ∧ ∃ o, In o organizations ∧ id o = n.
Proof.
  cbv zeta.
  assert (H : ∀ n,
    Storage.getItem "active_org_id"
      (Pages.handleDeleteOrg_store (Some (id org)) organizations org ls) = Some n ->
    n ≠ EmptyString ∧ n ≠ id org ∧ ∃ o, In o organizations ∧ id o = n).
  { unfold Pages.handleDeleteOrg_store, Storage.getItem, Storage.setItem,
      Storage.removeItem.
    cbn [Pages.loose_eq]. rewrite String.eqb_refl.
    destruct (List.filter (fun o => negb (String.eqb (id o) (id org))) organizations)
      as [|o rest] eqn:E; cbn [head fmap option_fmap option_map].
    - intros n. by rewrite lookup_delete_eq.
    - assert (Ho : In o (List.filter (fun o => negb (String.eqb (id o) (id org)))
                           organizations)) by (rewrite E; by left).
      apply List.filter_In in Ho as [Hin Hne].
      apply negb_true_iff, String.eqb_neq in Hne.
      destruct (JS.truthy (id o)) eqn:Ht; intros n.
      + rewrite lookup_insert_eq. intros [= <-].
        apply truthy_true in Ht. eauto.
      + by rewrite lookup_delete_eq. }
  split; [|exact H].
  intros Heq. destruct (H _ Heq) as (_ & Hne & _). done.
Qed.

(** The page sets the stored id on [onSubmit] but not its own copy, and
    [handleDeleteOrg] consults the copy: an organization created and then
    deleted on the same page stays the stored active organization. *)
Theorem created_then_deleted_org_stays_active (c : OrgPage.Component)
    (ls : gmap string string) (newOrg : Organization) :
  Pages.loose_eq (OrgPage.activeOrgId c) (id newOrg) = false ->
  Storage.getItem "active_org_id"
    (snd (OrgPage.updates [OrgPage.Submitted newOrg; OrgPage.Deleted newOrg] (c, ls)))
  = Some (id newOrg).
Proof.
  intros H. unfold OrgPage.updates.
  cbn [foldl OrgPage.update OrgPage.activeOrgId OrgPage.organizations].
  rewrite H. cbn [snd].
  unfold Pages.onSubmit_store, Storage.getItem, Storage.setItem.
  apply lookup_insert_eq.
Qed.

Lemma created_then_deleted_org_stays_active_witness :
  Storage.getItem "active_org_id"
    (snd (OrgPage.updates
            [OrgPage.Submitted (mkOrg "n" "New" "new" "2025-02-01");
             OrgPage.Deleted (mkOrg "n" "New" "new" "2025-02-01")]
            (OrgPage.mounted, Api.demo_storage)))
  = Some (id (mkOrg "n" "New" "new" "2025-02-01")).
Proof.
  apply (created_then_deleted_org_stays_active OrgPage.mounted Api.demo_storage
           (mkOrg "n" "New" "new" "2025-02-01")).
  reflexivity.
Defined.

(** ** Shortened strings and key types *)

Lemma slice_last_length (keep : nat) (str : list N) :
  keep <= length str ->
  length (Units.slice_last keep str) = if Nat.eqb keep 0 then length str else keep.
Proof.
  intros H. unfold Units.slice_last.
  destruct (Nat.eqb keep 0); [done|]. rewrite length_drop. lia.
Qed.

Lemma truncateMiddle_short (str : list N) (keep : nat) :
  length str <= keep * 2 + 3 -> Units.truncateMiddle str keep = str.
Proof.
  intros H. unfold Units.truncateMiddle. destruct str as [|c str]; [done|].
  apply Nat.leb_le in H. by rewrite H.
Qed.

Lemma truncateMiddle_long (str : list N) (keep : nat) :
  keep * 2 + 3 < length str ->
  Units.truncateMiddle str keep
  = take keep str ++ [Units.ellipsis] ++ Units.slice_last keep str.
Proof.
  intros H. unfold Units.truncateMiddle.
  destruct str as [|c str]; [cbn [length] in H; lia|].
  apply Nat.leb_gt in H. by rewrite H.
Qed.

Lemma truncateMiddle_units (str : list N) (keep : nat) :
  length (Units.truncateMiddle str keep)
  = if length str <=? keep * 2 + 3 then length str
    else if Nat.eqb keep 0 then length str + 1
    else keep * 2 + 1.
Proof.
  destruct (length str <=? keep * 2 + 3) eqn:E.
  - apply Nat.leb_le in E. by rewrite truncateMiddle_short.
  - apply Nat.leb_gt in E. rewrite truncateMiddle_long by done.
    rewrite !length_app, length_take, slice_last_length by lia.
    cbn [length]. destruct (Nat.eqb keep 0) eqn:K.
    + apply Nat.eqb_eq in K. lia.
    + lia.
Qed.


(** The result begins with the first [keep] units of the input and ends
    with its last [keep] units. *)
Theorem truncateMiddle_keeps_ends (str : list N) (keep : nat) :
  take keep (Units.truncateMiddle str keep) = take keep str
  ∧ drop (length (Units.truncateMiddle str keep) - keep)
      (Units.truncateMiddle str keep)
    = drop (length str - keep) str.
Proof.
  destruct (Nat.le_gt_cases (length str) (keep * 2 + 3)) as [H|H].
  - by rewrite truncateMiddle_short.
  - pose proof (truncateMiddle_units str keep) as Hl.
    pose proof (proj2 (Nat.leb_gt _ _) H) as Hb. rewrite Hb in Hl. rewrite Hl.
    rewrite truncateMiddle_long by done. split.
    + rewrite take_app_le by (rewrite length_take; lia).
      rewrite take_take. f_equal. lia.
    + unfold Units.slice_last. destruct (Nat.eqb keep 0) eqn:K.
      * apply Nat.eqb_eq in K. subst keep.
        rewrite !Nat.sub_0_r. rewrite drop_all.
        rewrite drop_ge; [done|]. rewrite !length_app, length_take.
        cbn [length]. lia.
      * apply Nat.eqb_neq in K.
        replace (keep * 2 + 1 - keep) with (length (take keep str ++ [Units.ellipsis]))
          by (rewrite length_app, length_take; cbn [length]; lia).
        rewrite (app_assoc (take keep str) [Units.ellipsis]).
        by rewrite drop_app_length.
Qed.

(** Shortening what is already shortened changes nothing, for [keep] of
    one or more (every call in the pages). *)
Theorem truncateMiddle_idempotent (str : list N) (keep : nat) :
  1 <= keep ->
  Units.truncateMiddle (Units.truncateMiddle str keep) keep
  = Units.truncateMiddle str keep.
Proof.
  intros Hk. apply truncateMiddle_short.
  pose proof (truncateMiddle_units str keep) as Hl. rewrite Hl.
  destruct (length str <=? keep * 2 + 3) eqn:E.
  - by apply Nat.leb_le in E.
  - destruct (Nat.eqb keep 0) eqn:K; [apply Nat.eqb_eq in K; lia | lia].
Qed.

Lemma truncateMiddle_idempotent_witness :
  Units.truncateMiddle
    (Units.truncateMiddle (Units.of_ascii "SHA256:abcdefghijklmnopqrstuvwxyz") 4) 4
  = Units.truncateMiddle (Units.of_ascii "SHA256:abcdefghijklmnopqrstuvwxyz") 4.
Proof.
  apply (truncateMiddle_idempotent
           (Units.of_ascii "SHA256:abcdefghijklmnopqrstuvwxyz") 4).
  lia.
Defined.

Lemma first_field_shape (s : list N) :
  ∃ rest, s = Units.first_field s ++ rest
          ∧ Forall (fun c => Units.is_space c = false) (Units.first_field s)
          ∧ (rest = [] ∨ ∃ c rest', rest = c :: rest' ∧ Units.is_space c = true).
Proof.
  induction s as [|c s (rest & Hs & Hall & Hrest)].
  - exists []. repeat split; [constructor | by left].
  - cbn [Units.first_field]. destruct (Units.is_space c) eqn:E.
    + exists (c :: s). repeat split; [constructor | right; eauto].
    + exists rest. cbn [app]. repeat split.
      * by rewrite <- Hs.
      * by constructor.
      * exact Hrest.
Qed.

(** The key type shown for a public key is the text before its first white
    space: a string is never answered with the fallback, an empty one or one
    that begins with white space gives the empty type. *)
Theorem getKeyType_is_first_field (s : list N) :
  ∃ rest, s = Units.getKeyType (Some s) ++ rest
          ∧ Forall (fun c => Units.is_space c = false) (Units.getKeyType (Some s))
          ∧ (rest = [] ∨ ∃ c rest', rest = c :: rest' ∧ Units.is_space c = true).
Proof. exact (first_field_shape s). Qed.

(** ** Selections kept in a [Set] *)

Lemma has_In (x : string) (s : list string) : JSSet.has x s = true <-> In x s.
Proof.
  unfold JSSet.has. rewrite List.existsb_exists. split.
  - intros (y & Hy & E). apply String.eqb_eq in E. by subst.
  - intros H. exists x. split; [done | apply String.eqb_refl].
Qed.

Lemma add_In (x y : string) (s : list string) :
  In y (JSSet.add x s) <-> y = x ∨ In y s.
Proof.
  unfold JSSet.add. destruct (JSSet.has x s) eqn:E.
  - apply has_In in E. split; [by right | intros [-> | H]; done].
  - rewrite in_app_iff. cbn [In]. split; intros H.
    + destruct H as [H | [H | []]]; [by right | by left].
    + destruct H as [-> | H]; [right; by left | by left].
Qed.

Lemma add_NoDup (x : string) (s : list string) :
  List.NoDup s -> List.NoDup (JSSet.add x s).
Proof.
  intros H. unfold JSSet.add. destruct (JSSet.has x s) eqn:E; [done|].
  assert (Hx : ¬ In x s) by (rewrite <- has_In; congruence).
  apply List.NoDup_app; [exact H | repeat constructor; by intros [] |].
  intros y Hy [<- | []]. by apply Hx.
Qed.

Lemma delete_In (x y : string) (s : list string) :
  In y (JSSet.delete x s) <-> In y s ∧ y ≠ x.
Proof.
  unfold JSSet.delete. rewrite List.filter_In, negb_true_iff, String.eqb_neq.
  reflexivity.
Qed.

Lemma delete_NoDup (x : string) (s : list string) :
  List.NoDup s -> List.NoDup (JSSet.delete x s).
Proof. apply List.NoDup_filter. Qed.

Lemma foldl_add (l acc : list string) :
  List.NoDup acc ->
  List.NoDup (foldl (fun s x => JSSet.add x s) acc l)
  ∧ ∀ y, In y (foldl (fun s x => JSSet.add x s) acc l) <-> In y acc ∨ In y l.
Proof.
  revert acc. induction l as [|x l IH]; intros acc Hnd.
  - split; [done|]. intros y. cbn [foldl In]. tauto.
  - cbn [foldl]. destruct (IH (JSSet.add x acc) (add_NoDup x acc Hnd)) as [H1 H2].
    split; [done|]. intros y. rewrite H2, add_In. cbn [In]. split; intros H.
    + destruct H as [[-> | H] | H]; [right; by left | by left | right; by right].
    + destruct H as [H | [<- | H]]; [left; by right | left; by left | by right].
Qed.

Lemma of_list_spec (l : list string) :
  List.NoDup (JSSet.of_list l) ∧ ∀ y, In y (JSSet.of_list l) <-> In y l.
Proof.
  destruct (foldl_add l [] (List.NoDup_nil _)) as [H1 H2].
  split; [exact H1|]. intros y. unfold JSSet.of_list. rewrite H2. cbn [In]. tauto.
Qed.

Lemma toggle_members (value : option (list string)) (i : string) :
  List.NoDup (Taints.toggle value i)
  ∧ (In i (Taints.toggle value i) <-> ¬ In i (default [] value))
  ∧ ∀ x, x ≠ i -> (In x (Taints.toggle value i) <-> In x (default [] value)).
Proof.
  unfold Taints.toggle, JSSet.to_array.
  destruct (of_list_spec (default [] value)) as [N1 M1].
  destruct (of_list_spec (JSSet.of_list (default [] value))) as [N2 M2].
  assert (M : ∀ y, In y (JSSet.of_list (JSSet.of_list (default [] value)))
                   <-> In y (default [] value)).
  { intros y. by rewrite M2, M1. }
  destruct (JSSet.has i (JSSet.of_list (JSSet.of_list (default [] value)))) eqn:E.
  - apply has_In, M in E. split; [by apply delete_NoDup|]. split.
    + rewrite delete_In. tauto.
    + intros x Hx. rewrite delete_In, M. tauto.
  - assert (Hi : ¬ In i (default [] value)).
    { rewrite <- M, <- has_In. congruence. }
    split; [by apply add_NoDup|]. split.
    + rewrite add_In. tauto.
    + intros x Hx. rewrite add_In, M. tauto.
Qed.

(** [toggle] flips the membership of the one id and of no other, and hands
    over a list without duplicates. *)
Theorem toggle_flips_one (value : option (list string)) (i : string) :
  List.NoDup (Taints.toggle value i)
  ∧ (In i (Taints.toggle value i) <-> ¬ In i (default [] value))
  ∧ ∀ x, x ≠ i -> (In x (Taints.toggle value i) <-> In x (default [] value)).
Proof. exact (toggle_members value i). Qed.

(** Two toggles of the same id give back the selection, as a set: the same
    ids, though a selected id has moved to the end. *)
Theorem toggle_twice (value : option (list string)) (i x : string) :
  In x (Taints.toggle (Some (Taints.toggle value i)) i) <-> In x (default [] value).
Proof.
  destruct (toggle_members value i) as (_ & H1 & H2).
  destruct (toggle_members (Some (Taints.toggle value i)) i) as (_ & H3 & H4).
  cbn [default from_option] in H3, H4.
  destruct (String.string_dec x i) as [-> | Hne].
  - rewrite H3, H1.
    destruct (List.in_dec String.string_dec i (default [] value)); tauto.
  - rewrite (H4 x Hne). exact (H2 x Hne).
Qed.

Example toggle_moves_to_the_end :
  Taints.toggle (Some (Taints.toggle (Some ["a"; "b"; "c"]) "a")) "a"
  = ["b"; "c"; "a"].
Proof. reflexivity. Qed.

Lemma checked_In (value : option (list string)) (x : string) :
  Pools.checked value x = true <-> In x (default [] value).
Proof.
  destruct value as [l|]; cbn [Pools.checked default from_option].
  - apply has_In.
  - cbn [In]. split; [discriminate | tauto].
Qed.

(** After its change a server's box shows what was clicked, the boxes of
    the other servers show what they showed, and the ids handed over have no
    duplicates. *)
Theorem checkbox_round_trip (v : bool) (value : option (list string))
    (server_id : string) :
  Pools.checked (Some (Pools.onCheckedChange v value server_id)) server_id = v
  ∧ (∀ x, x ≠ server_id ->
       Pools.checked (Some (Pools.onCheckedChange v value server_id)) x
       = Pools.checked value x)
  ∧ List.NoDup (Pools.onCheckedChange v value server_id).
Proof.
  destruct (of_list_spec (default [] value)) as [N1 M1].
  assert (Hin : ∀ x, In x (Pools.onCheckedChange v value server_id)
                     <-> (if v then x = server_id ∨ In x (default [] value)
                          else In x (default [] value) ∧ x ≠ server_id)).
  { intros x. unfold Pools.onCheckedChange, JSSet.to_array. destruct v.
    - by rewrite add_In, M1.
    - by rewrite delete_In, M1. }
  repeat split.
  - destruct v.
    + apply checked_In. cbn [default from_option]. apply Hin. by left.
    + apply not_true_is_false. rewrite checked_In. cbn [default from_option].
      rewrite Hin. tauto.
  - intros x Hx.
    apply eq_true_iff_eq. rewrite !checked_In. cbn [default from_option].
    rewrite Hin. destruct v; tauto.
  - unfold Pools.onCheckedChange, JSSet.to_array.
    destruct v; [by apply add_NoDup | by apply delete_NoDup].
Qed.

(** The servers offered for a pool are those of the list that the pool does
    not hold already, in the order of the list; with no pool chosen none is
    offered. *)
Theorem attachableServers_spec (target : Pools.NodePool)
    (allServers : list Pools.ServerBrief) (s : Pools.ServerBrief) :
  (In s (Pools.attachableServers (Some target) allServers)
   <-> In s allServers
       ∧ ¬ In (Pools.id s) (map Pools.id (default [] (Pools.servers target))))
  ∧ Pools.attachableServers None allServers = [].
Proof.
  split; [|reflexivity].
  unfold Pools.attachableServers. rewrite List.filter_In, negb_true_iff.
  destruct (of_list_spec (map Pools.id (default [] (Pools.servers target)))) as [_ M].
  rewrite <- M, <- has_In.
  destruct (JSSet.has (Pools.id s) _); split; intros [H1 H2]; split;
    try done; congruence.
Qed.

(** A server with an id never gets an empty label, and the label of one
    with a host name begins with that name. *)
Theorem serverLabel_not_empty (s : Pools.ServerBrief) :
  Pools.id s ≠ EmptyString ->
  Pools.serverLabel s ≠ EmptyString
  ∧ ∀ h, Pools.hostname s = Some h -> h ≠ EmptyString ->
         ∃ rest, Pools.serverLabel s = h +:+ rest.
Proof.
  intros Hid. unfold Pools.serverLabel. split.
  - assert (Hn : default (Pools.id s)
                   (Pools.or_else
                      (Pools.or_else (Pools.hostname s)
                         (Pools.or_else (Pools.ip s) (Pools.ip_address s))) None)
                 ≠ EmptyString).
    { unfold Pools.or_else at 1.
      destruct (JS.truthy_opt _) eqn:E; cbn [default from_option]; [|done].
      destruct (Pools.or_else _ _) as [n|]; [|discriminate E].
      cbn [default from_option JS.truthy_opt] in *. by apply truthy_true. }
    intros H. apply Hn.
    destruct (default (Pools.id s) _); [done | discriminate H].
  - intros h Hh Hne. rewrite Hh. apply truthy_true in Hne.
    unfold Pools.or_else at 2. cbn [JS.truthy_opt]. rewrite Hne.
    unfold Pools.or_else. cbn [JS.truthy_opt]. rewrite Hne.
    cbn [default from_option]. eauto.
Qed.

Lemma serverLabel_not_empty_witness :
  Pools.serverLabel
    (Pools.mkServerBrief "srv-1" None (Some EmptyString) (Some "10.0.0.7")
       (Some "worker") None) ≠ EmptyString
  ∧ ∀ h, Pools.hostname
           (Pools.mkServerBrief "srv-1" None (Some EmptyString) (Some "10.0.0.7")
              (Some "worker") None) = Some h ->
         h ≠ EmptyString ->
         ∃ rest, Pools.serverLabel
                   (Pools.mkServerBrief "srv-1" None (Some EmptyString)
                      (Some "10.0.0.7") (Some "worker") None) = h +:+ rest.
Proof.
  apply (serverLabel_not_empty
           (Pools.mkServerBrief "srv-1" None (Some EmptyString) (Some "10.0.0.7")
              (Some "worker") None)).
  discriminate.
Defined.

(** ** The name of a downloaded key *)

Section DownloadName.
Import Download.

Variable decodeURIComponent : list N -> option (list N).

Lemma ci_match_refl (p : N) : ci_match p p = true.
Proof. unfold ci_match. apply N.eqb_refl. Qed.

(** A unit of the pattern that is no letter is matched by itself only. *)
Lemma ci_match_exact (p d : N) :
  upper p = p -> (p < 65 ∨ 90 < p)%N -> ci_match p d = true -> d = p.
Proof.
  unfold ci_match, upper. intros Hp Hr H. apply N.eqb_eq in H.
  rewrite Hp in H.
  destruct ((97 <=? d) && (d <=? 122))%N eqn:E; [|done].
  apply andb_prop in E as [E1 E2].
  apply N.leb_le in E1. apply N.leb_le in E2. lia.
Qed.

Lemma starts_with_ci_In (lit s rest : list N) (p : N) :
  starts_with_ci lit s = Some rest -> In p lit ->
  upper p = p -> (p < 65 ∨ 90 < p)%N -> In p s.
Proof.
  revert s. induction lit as [|p' lit IH]; intros s H Hin Hp Hr; [destruct Hin|].
  destruct s as [|d s]; [discriminate H|]. cbn [starts_with_ci] in H.
  destruct (ci_match p' d) eqn:E; [|discriminate H].
  destruct Hin as [-> | Hin].
  - left. by apply ci_match_exact.
  - right. by apply (IH s).
Qed.

Lemma starts_with_ci_app (lit s : list N) : starts_with_ci lit (lit ++ s) = Some s.
Proof.
  induction lit as [|p lit IH]; [done|].
  cbn [app starts_with_ci]. by rewrite ci_match_refl.
Qed.

Lemma run_not_app (stop : N) (cap tail : list N) :
  Forall (fun c => c ≠ stop) cap ->
  tail = [] ∨ (∃ t, tail = stop :: t) ->
  run_not stop (cap ++ tail) = cap.
Proof.
  intros Hcap Htail. induction Hcap as [|c cap Hc _ IH].
  - destruct Htail as [-> | (t & ->)]; [done|].
    cbn [app run_not]. by rewrite N.eqb_refl.
  - cbn [app run_not]. apply N.eqb_neq in Hc. by rewrite Hc, IH.
Qed.

Lemma exec_without (at_head : list N -> option (list N)) (lit : list N)
    (p : N) (s : list N) :
  (∀ t, at_head t ≠ None -> starts_with_ci lit t ≠ None) ->
  In p lit -> upper p = p -> (p < 65 ∨ 90 < p)%N ->
  Forall (fun c => c ≠ p) s ->
  exec at_head s = None.
Proof.
  intros Hat Hin Hp Hr Hs.
  assert (Hnone : ∀ t, Forall (fun c => c ≠ p) t -> at_head t = None).
  { intros t Ht. destruct (at_head t) eqn:E; [|done]. exfalso.
    destruct (starts_with_ci lit t) as [rest|] eqn:E'.
    - pose proof (starts_with_ci_In lit t rest p E' Hin Hp Hr) as Hp'.
      apply (proj1 (List.Forall_forall _ _) Ht p Hp'). reflexivity.
    - apply (Hat t); congruence. }
  induction Hs as [|c s Hc Hs IH].
  - cbn [exec]. rewrite (Hnone []); [done | constructor].
  - cbn [exec]. rewrite (Hnone (c :: s)) by (by constructor). exact IH.
Qed.

Lemma star_at_literal (t : list N) :
  star_at t ≠ None -> starts_with_ci star_literal t ≠ None.
Proof. unfold star_at. by destruct (starts_with_ci star_literal t). Qed.

Lemma basic_at_literal (t : list N) :
  basic_at t ≠ None -> starts_with_ci basic_literal t ≠ None.
Proof. unfold basic_at. by destruct (starts_with_ci basic_literal t). Qed.

Lemma exec_skip (at_head : list N -> option (list N)) (lit : list N)
    (pre s : list N) :
  (∀ t, at_head t ≠ None -> starts_with_ci (102%N :: lit) t ≠ None) ->
  Forall (fun c => upper c ≠ 70%N) pre ->
  exec at_head (pre ++ s) = exec at_head s.
Proof.
  intros Hat Hpre. induction Hpre as [|c pre Hc _ IH]; [done|].
  cbn [app exec].
  destruct (at_head (c :: pre ++ s)) eqn:E; [|exact IH].
  exfalso. apply (Hat (c :: pre ++ s)); [congruence|].
  cbn [starts_with_ci]. unfold ci_match.
  change (upper 102%N) with 70%N.
  destruct (70 =? upper c)%N eqn:E'; [|done].
  apply N.eqb_eq in E'. congruence.
Qed.

(** With no header, an empty one, or one without an equals sign, the name is
    the fallback, and nothing is decoded. *)
Theorem filename_fallback (disposition : option (list N)) (fallback : list N) :
  Forall (fun c => c ≠ 61%N) (default [] disposition) ->
  filenameFromDisposition decodeURIComponent disposition fallback = Some fallback.
Proof.
  intros H. destruct disposition as [[|c d]|]; try reflexivity.
  cbn [default from_option] in H. unfold filenameFromDisposition.
  rewrite (exec_without star_at star_literal 61%N (c :: d) star_at_literal);
    [|vm_compute; tauto | reflexivity | left; reflexivity | exact H].
  rewrite (exec_without basic_at basic_literal 61%N (c :: d) basic_at_literal);
    [reflexivity | vm_compute; tauto | reflexivity | left; reflexivity | exact H].
Qed.

(** The plain form: after [filename=] and an optional opening quote, the
    name is everything up to the next double quote or the end of the header;
    a semicolon does not end it.  (No [f] before the parameter and no star
    in the header, so that no other match comes first.) *)
Theorem filename_basic (pre q cap tail fallback : list N) :
  Forall (fun c => upper c ≠ 70%N) pre ->
  Forall (fun c => c ≠ 42%N) (pre ++ basic_literal ++ q ++ cap ++ tail) ->
  q = [] ∨ q = [quote] ->
  cap ≠ [] -> Forall (fun c => c ≠ quote) cap ->
  tail = [] ∨ (∃ t, tail = quote :: t) ->
  filenameFromDisposition decodeURIComponent
    (Some (pre ++ basic_literal ++ q ++ cap ++ tail)) fallback
  = Some cap.
Proof.
  intros Hpre Hstar Hq Hcap Hnq Htail.
  assert (Hd : ∃ c d, pre ++ basic_literal ++ q ++ cap ++ tail = c :: d).
  { destruct pre as [|c pre]; [|by eauto].
    cbn [app]. unfold basic_literal. vm_compute Units.of_ascii. cbn [app]. eauto. }
  destruct Hd as (c & d & Hd). unfold filenameFromDisposition.
  rewrite Hd. rewrite <- Hd.
  rewrite (exec_without star_at star_literal 42%N _ star_at_literal);
    [|vm_compute; tauto | reflexivity | left; reflexivity | exact Hstar].
  rewrite (exec_skip basic_at (tl basic_literal) pre _ basic_at_literal Hpre).
  assert (Hat : basic_at (basic_literal ++ q ++ cap ++ tail) = Some cap).
  { unfold basic_at. rewrite starts_with_ci_app.
    destruct cap as [|c0 cap0]; [done|].
    apply Forall_cons in Hnq as [Hc0 Hnq0].
    destruct Hq as [-> | ->].
    - cbn [app]. apply N.eqb_neq in Hc0 as Hc0'. rewrite Hc0'.
      change (c0 :: cap0 ++ tail) with ((c0 :: cap0) ++ tail).
      rewrite run_not_app; [done | by constructor | done].
    - cbn [app]. unfold quote at 1. rewrite N.eqb_refl.
      change (c0 :: cap0 ++ tail) with ((c0 :: cap0) ++ tail).
      rewrite run_not_app; [done | by constructor | done]. }
  destruct (basic_literal ++ q ++ cap ++ tail) as [|c1 d1] eqn:E;
    cbn [exec]; by rewrite Hat.
Qed.

(** The extended form wins: when the header holds [filename*=UTF-8''] and
    a name after it, that name, up to the next semicolon or the end, is what
    is decoded and returned, whatever follows it, a plain [filename=]
    included.  (No [f] before the parameter.) *)
Theorem filename_star (pre cap tail fallback : list N) :
  Forall (fun c => upper c ≠ 70%N) pre ->
  cap ≠ [] -> Forall (fun c => c ≠ semicolon) cap ->
  tail = [] ∨ (∃ t, tail = semicolon :: t) ->
  filenameFromDisposition decodeURIComponent
    (Some (pre ++ star_literal ++ cap ++ tail)) fallback
  = decodeURIComponent cap.
Proof.
  intros Hpre Hcap Hns Htail.
  assert (Hd : ∃ c d, pre ++ star_literal ++ cap ++ tail = c :: d).
  { destruct pre as [|c pre]; [|by eauto].
    cbn [app]. unfold star_literal. vm_compute Units.of_ascii. cbn [app]. eauto. }
  destruct Hd as (c & d & Hd). unfold filenameFromDisposition.
  rewrite Hd. rewrite <- Hd.
  rewrite (exec_skip star_at (tl star_literal) pre _ star_at_literal Hpre).
  assert (Hat : star_at (star_literal ++ cap ++ tail) = Some cap).
  { unfold star_at. rewrite starts_with_ci_app, run_not_app by done.
    by destruct cap. }
  destruct (star_literal ++ cap ++ tail) as [|c1 d1] eqn:E;
    cbn [exec]; by rewrite Hat.
Qed.

End DownloadName.

Lemma filename_fallback_witness :
  Download.filenameFromDisposition Some
    (Some (Units.of_ascii "attachment")) (Units.of_ascii "ssh_key_7.zip")
  = Some (Units.of_ascii "ssh_key_7.zip").
Proof.
  apply (filename_fallback Some (Some (Units.of_ascii "attachment"))
           (Units.of_ascii "ssh_key_7.zip")).
  vm_compute. repeat constructor; discriminate.
Defined.

Lemma filename_basic_witness :
  Download.filenameFromDisposition Some
    (Some (Units.of_ascii "attachment; " ++ Download.basic_literal ++ []
           ++ Units.of_ascii "id_rsa_7.pub; size=381" ++ []))
    (Units.of_ascii "download.bin")
  = Some (Units.of_ascii "id_rsa_7.pub; size=381").
Proof.
  apply (filename_basic Some (Units.of_ascii "attachment; ") []
           (Units.of_ascii "id_rsa_7.pub; size=381") [] (Units.of_ascii "download.bin")).
  - vm_compute. repeat constructor; discriminate.
  - vm_compute. repeat constructor; discriminate.
  - by left.
  - discriminate.
  - vm_compute. repeat constructor; discriminate.
  - by left.
Defined.

Lemma filename_star_witness :
  Download.filenameFromDisposition Some
    (Some (Units.of_ascii "attachment; " ++ Download.star_literal
           ++ Units.of_ascii "id%20rsa.pem"
           ++ Units.of_ascii "; filename=other.pem"))
    (Units.of_ascii "download.bin")
  = Some (Units.of_ascii "id%20rsa.pem").
Proof.
  apply (filename_star Some (Units.of_ascii "attachment; ")
           (Units.of_ascii "id%20rsa.pem") (Units.of_ascii "; filename=other.pem")
           (Units.of_ascii "download.bin")).
  - vm_compute. repeat constructor; discriminate.
  - discriminate.
  - vm_compute. repeat constructor; discriminate.
  - right. vm_compute. eauto.
Defined.
